(** * discord-irc: the relay bot of [lib/bot.js]

    A shallow embedding of the [Bot] class: the channel mapping built by the
    constructor, the two text transforms ([parseText] for Discord to IRC and
    the mention pass of [sendToDiscord] for IRC to Discord), the nick colour
    choice, the command routing and the invite handler.

    Conventions of the embedding.
    - A JavaScript string is the list of its UTF-16 code units ([jsstring]);
      [charCodeAt], [length], indexing and the regular expressions of the
      source (none has the [u] flag) all work on code units.
    - A plain JavaScript object used as a dictionary is the list of its own
      enumerable properties in enumeration order ([obj]); the order is
      observed by [_.forOwn], [_.invert] and [_.values] only. [Obj.get] reads
      the own properties; [Obj.lookup] is the read [o[k]] of JavaScript,
      which also finds what a plain object inherits from [Object.prototype].
      The two agree on names that start with [#], as the keys that
      [sendToIRC] looks up do.
    - Functions of the host and of the libraries ([String.prototype.toLowerCase],
      [irc.colors.wrap], the [toString] of discord.js users and members) are
      the fields of the class [Host].
    - Calls on the two clients ([ircClient.say], [ircClient.join],
      [channel.sendMessage]) are appended to a log threaded through a small
      state-and-exception monad; a JavaScript [throw] keeps the calls made
      before it. *)

From Stdlib Require Import List NArith Arith Bool String Ascii Lia.
Import ListNotations.

(** ** JavaScript strings *)

Module Js.

Definition jsstring := list N.

(** An ASCII literal as a JavaScript string. *)
Definition lit (s : string) : jsstring :=
  map N_of_ascii (list_ascii_of_string s).

(** [a === b] on strings. *)
Fixpoint jseqb (a b : jsstring) : bool :=
  match a, b with
  | [], [] => true
  | x :: a', y :: b' => N.eqb x y && jseqb a' b'
  | _, _ => false
  end.

(** Truthiness of a string: every string but the empty one. *)
Definition truthy (s : jsstring) : bool :=
  match s with [] => false | _ :: _ => true end.

(** Truthiness of a possibly [undefined] string. *)
Definition truthy_opt (o : option jsstring) : bool :=
  match o with Some s => truthy s | None => false end.

(** [a || b] where [a] may be [null] or [undefined]. *)
Definition or_else (a : option jsstring) (b : jsstring) : jsstring :=
  match a with
  | Some s => if truthy s then s else b
  | None => b
  end.

(** [s.split(sep)] for a one-unit separator: never empty. *)
Fixpoint split (sep : N) (s : jsstring) : list jsstring :=
  match s with
  | [] => [[]]
  | c :: r =>
      if N.eqb c sep then [] :: split sep r
      else match split sep r with
           | p :: ps => (c :: p) :: ps
           | [] => [[c]]
           end
  end.

(** [s.startsWith(p)], used by the string searches below. *)
Fixpoint starts_with (p s : jsstring) : bool :=
  match p, s with
  | [], _ => true
  | x :: p', y :: s' => N.eqb x y && starts_with p' s'
  | _ :: _, [] => false
  end.

(** The first occurrence of [pat] in [s]: the text before it and the text
    after it. *)
Fixpoint find_first (pat s : jsstring) : option (jsstring * jsstring) :=
  if starts_with pat s then Some ([], skipn (List.length pat) s)
  else match s with
       | [] => None
       | c :: r =>
           match find_first pat r with
           | Some (before, after) => Some (c :: before, after)
           | None => None
           end
       end.

(** [GetSubstitution] of ECMAScript for a string pattern (no capture
    groups): [$$], [$&], [$`] and [$'] are expanded, any other [$] is
    literal. *)
Fixpoint GetSubstitution (matched before after repl : jsstring) : jsstring :=
  match repl with
  | [] => []
  | c :: r =>
      if N.eqb c 36 then
        match r with
        | [] => [c]
        | d :: r2 =>
            if N.eqb d 36 then 36%N :: GetSubstitution matched before after r2
            else if N.eqb d 38 then matched ++ GetSubstitution matched before after r2
            else if N.eqb d 96 then before ++ GetSubstitution matched before after r2
            else if N.eqb d 39 then after ++ GetSubstitution matched before after r2
            else c :: GetSubstitution matched before after r
        end
      else c :: GetSubstitution matched before after r
  end.

(** [s.replace(pat, repl)] with a string pattern: the first occurrence
    only. *)
Definition replace (s pat repl : jsstring) : jsstring :=
  match find_first pat s with
  | Some (before, after) =>
      before ++ GetSubstitution pat before after repl ++ after
  | None => s
  end.

(** Character classes of regular expressions without the [u] flag. *)
Definition between (lo hi c : N) : bool := N.leb lo c && N.leb c hi.

Definition is_digit (c : N) : bool := between 48 57 c.

Definition is_word (c : N) : bool :=
  between 97 122 c || between 65 90 c || is_digit c || N.eqb c 95.

Definition is_space (c : N) : bool :=
  between 9 13 c || N.eqb c 32 || N.eqb c 160 || N.eqb c 5760
  || between 8192 8202 c || N.eqb c 8232 || N.eqb c 8233
  || N.eqb c 8239 || N.eqb c 8287 || N.eqb c 12288 || N.eqb c 65279.

(** The longest prefix whose units all satisfy [p], and the rest. *)
Fixpoint span (p : N -> bool) (s : jsstring) : jsstring * jsstring :=
  match s with
  | [] => ([], [])
  | c :: r =>
      if p c then let (a, b) := span p r in (c :: a, b)
      else ([], s)
  end.

(** [t] occurs in [s]. *)
Definition contains (t s : jsstring) : Prop :=
  exists pre post, s = pre ++ t ++ post.

(** [t] starts with the unit [m], which occurs nowhere else in it. *)
Definition marked (m : N) (t : jsstring) : Prop :=
  exists r, t = m :: r /\ ~ In m r.

End Js.

Import Js.

(** ** Exceptions and results *)

Inductive error : Type :=
  | ConfigurationError (msg : jsstring)
  | TypeError.

Inductive result (A : Type) : Type :=
  | Ok (a : A)
  | Throw (e : error).

Arguments Ok {A} a.
Arguments Throw {A} e.

Definition rbind {A B} (r : result A) (k : A -> result B) : result B :=
  match r with
  | Ok a => k a
  | Throw e => Throw e
  end.

Declare Scope js_scope.
Delimit Scope js_scope with js.
Notation "x <- c ;; k" := (rbind c (fun x => k))
  (at level 61, c at next level, right associativity) : js_scope.

(** ** Global replacement by a regular expression

    [s.replace(/re/g, f)]: a matcher tries the expression at the head of the
    remaining input and answers the capture handed to [f] and the number of
    units matched (one at least); matches are found left to right and do not
    overlap. [skip] counts the units of the current match still to pass. *)

Section ReplaceAll.
Variable A : Type.
Variable matcher : jsstring -> option (A * nat).
Variable replacer : A -> result jsstring.

Fixpoint replace_from (skip : nat) (s : jsstring) : result jsstring :=
  match s with
  | [] => Ok []
  | c :: r =>
      match skip with
      | S k => replace_from k r
      | O =>
          match matcher s with
          | Some (cap, n) =>
              (out <- replacer cap ;;
               rest <- replace_from (pred n) r ;;
               Ok (out ++ rest))%js
          | None =>
              (rest <- replace_from 0 r ;; Ok (c :: rest))%js
          end
      end
  end.

Definition replace_all (s : jsstring) : result jsstring := replace_from 0 s.
End ReplaceAll.

Arguments replace_from {A} matcher replacer skip s.
Arguments replace_all {A} matcher replacer s.

(** ** Plain objects as dictionaries *)

Module Obj.

Definition obj := list (jsstring * jsstring).

(** [o[k]] on own properties; [None] is [undefined]. *)
Fixpoint get (o : obj) (k : jsstring) : option jsstring :=
  match o with
  | [] => None
  | (k', v) :: r => if jseqb k' k then Some v else get r k
  end.

(** [o[k] = v]: an existing property keeps its place, a new one comes
    last. *)
Fixpoint set (o : obj) (k v : jsstring) : obj :=
  match o with
  | [] => [(k, v)]
  | (k', v') :: r =>
      if jseqb k' k then (k, v) :: r else (k', v') :: set r k v
  end.

Definition keys (o : obj) : list jsstring := map fst o.

(** [_.values(o)]. *)
Definition values (o : obj) : list jsstring := map snd o.

(** [_.forOwn(o, f)] where [f] updates an accumulator; the callback
    receives the value first and the key second, as lodash passes them. *)
Definition forOwn {S : Type} (o : obj) (f : S -> jsstring -> jsstring -> S)
    (init : S) : S :=
  fold_left (fun acc kv => f acc (snd kv) (fst kv)) o init.

(** [_.invert(o)]: [result[value] = key] for each property in order, so
    the last key wins for a repeated value. *)
Definition invert (o : obj) : obj :=
  forOwn o (fun res value key => set res value key) [].

(** The key that [invert o] holds for the value [v]: the last one, in
    enumeration order, whose value is [v]. *)
Fixpoint last_key_of (o : obj) (v : jsstring) : option jsstring :=
  match o with
  | [] => None
  | (k, v') :: r =>
      match last_key_of r v with
      | Some k' => Some k'
      | None => if jseqb v' v then Some k else None
      end
  end.


Fixpoint mem (k : jsstring) (l : list jsstring) : bool :=
  match l with
  | [] => false
  | x :: r => jseqb x k || mem k r
  end.



(** The properties that an object created by [{}] inherits from
    [Object.prototype]. Each holds a function, and the accessor [__proto__]
    answers the prototype itself: every one is truthy and none is a
    string. *)
Definition inherited_names : list jsstring :=
  map lit ["constructor"; "hasOwnProperty"; "isPrototypeOf";
           "propertyIsEnumerable"; "toLocaleString"; "toString"; "valueOf";
           "__proto__"; "__defineGetter__"; "__defineSetter__";
           "__lookupGetter__"; "__lookupSetter__"]%string.

Definition inherited (k : jsstring) : bool := mem k inherited_names.

(** What [o[k]] answers: the string of an own property, a value found on
    the prototype, or [undefined]. *)
Inductive property : Type :=
  | Own (v : jsstring)
  | Inherited
  | Undefined.

(** [o[k]] on an object whose prototype is [Object.prototype]. *)
Definition lookup (o : obj) (k : jsstring) : property :=
  match get o k with
  | Some v => Own v
  | None => if inherited k then Inherited else Undefined
  end.

(** Truthiness of what a lookup answers. *)
Definition truthy_property (p : property) : bool :=
  match p with
  | Own v => truthy v
  | Inherited => true
  | Undefined => false
  end.

End Obj.

Import Obj.

(** ** Effects: calls on a client, in order, and exceptions

    A computation receives the calls logged so far and answers the log after
    it and its result; a thrown error keeps the calls made before it. *)

Definition Eff (C A : Type) : Type := list C -> list C * result A.

Definition eret {C A} (a : A) : Eff C A := fun log => (log, Ok a).

Definition ebind {C A B} (m : Eff C A) (k : A -> Eff C B) : Eff C B :=
  fun log =>
    match m log with
    | (log', Ok a) => k a log'
    | (log', Throw e) => (log', Throw e)
    end.

Definition emit {C} (c : C) : Eff C unit := fun log => (log ++ [c], Ok tt).

Definition lift {C A} (r : result A) : Eff C A := fun log => (log, r).

Declare Scope eff_scope.
Delimit Scope eff_scope with eff.
Notation "x <- c ;; k" := (ebind c (fun x => k))
  (at level 61, c at next level, right associativity) : eff_scope.
Notation "c ;; k" := (ebind c (fun _ => k))
  (at level 61, right associativity) : eff_scope.

(** [l.forEach(f)]. *)
Fixpoint forEach {C X} (l : list X) (f : X -> Eff C unit) : Eff C unit :=
  match l with
  | [] => eret tt
  | x :: r => (f x ;; forEach r f)%eff
  end.

(** ** The Discord directory (discord.js objects the bot reads) *)

Record User : Type := {
  u_id : jsstring;
  u_username : jsstring
}.

(** A guild member: [member.id] is [member.user.id]; [nickname] is [null]
    when unset. *)
Record GuildMember : Type := {
  m_user : User;
  m_nickname : option jsstring
}.

Definition m_id (m : GuildMember) : jsstring := u_id (m_user m).

Record Guild : Type := {
  g_members : list GuildMember
}.

Record Channel : Type := {
  ch_id : jsstring;
  ch_name : jsstring;
  ch_type : jsstring;
  ch_guild : Guild
}.

Record Attachment : Type := {
  a_url : jsstring
}.

(** A Discord message as [sendToIRC] and [parseText] read it. *)
Record Message : Type := {
  msg_content : jsstring;
  msg_mentions_users : list User;
  msg_channel_name : jsstring;
  msg_author : User;
  msg_guild : Guild;
  msg_attachments : option (list Attachment)
}.

(** [this.discord]: the logged-in user and the two collections. *)
Record Discord : Type := {
  d_user : User;
  d_channels : list Channel;
  d_users : list User
}.

(** Functions of the JavaScript host and of the node-irc and discord.js
    libraries. *)
Class Host : Type := {
  toLowerCase : jsstring -> jsstring;
  toLowerCase_nonempty : forall s, s <> [] -> toLowerCase s <> [];
  colors_wrap : option jsstring -> jsstring -> jsstring;
  user_toString : User -> jsstring;
  member_toString : GuildMember -> jsstring
}.

(** [collection.find('id', v)], [find('nickname', v)], [find('username', v)],
    [find('name', v)] and [channels.get(id)]: the first element whose
    property is strictly equal to [v]. *)
Definition opt_eqb (o : option jsstring) (v : jsstring) : bool :=
  match o with Some s => jseqb s v | None => false end.

Definition find_member_by_id (g : Guild) (v : jsstring) : option GuildMember :=
  find (fun m => jseqb (m_id m) v) (g_members g).

Definition find_member_by_nickname (g : Guild) (v : jsstring)
    : option GuildMember :=
  find (fun m => opt_eqb (m_nickname m) v) (g_members g).

Definition find_user_by_username (us : list User) (v : jsstring) : option User :=
  find (fun u => jseqb (u_username u) v) us.

Definition find_channel_by_name (cs : list Channel) (v : jsstring)
    : option Channel :=
  find (fun c => jseqb (ch_name c) v) cs.

Definition channels_get (cs : list Channel) (id : jsstring) : option Channel :=
  find (fun c => jseqb (ch_id c) id) cs.

(** ** The bot *)

Record Options : Type := {
  o_server : option jsstring;
  o_nickname : option jsstring;
  o_channelMapping : option obj;
  o_discordToken : option jsstring;
  o_commandCharacters : option (list jsstring);
  o_ircNickColor : option bool;
  o_autoSendCommands : option (list (list jsstring))
}.

Record Bot : Type := {
  server : jsstring;
  nickname : jsstring;
  discordToken : jsstring;
  commandCharacters : list jsstring;
  ircNickColor : bool;
  channels : list jsstring;
  channelMapping : obj;
  invertedMapping : obj;
  autoSendCommands : list (list jsstring)
}.

Definition NICK_COLORS : list jsstring :=
  map lit ["light_blue"; "dark_blue"; "light_red"; "dark_red"; "light_green";
           "dark_green"; "magenta"; "light_magenta"; "orange"; "yellow";
           "cyan"; "light_cyan"]%string.

Definition missing (field : string) : error :=
  ConfigurationError (lit "Missing configuration field " ++ lit field).

(** Modelled from the spec: [validateChannelMapping] of [lib/validators],
    which is not among the sources. The spec (4.1) has construction fail
    with a ConfigurationError when the raw mapping has fewer than one pair,
    or an entry has an empty Discord key or an empty IRC name after the
    split on the space. *)
Definition validateChannelMapping (mapping : obj) : result unit :=
  match mapping with
  | [] => Throw (ConfigurationError (lit "Invalid channel mapping given"))
  | _ :: _ =>
      if forallb (fun kv => truthy (fst kv)
                            && truthy (hd [] (split 32 (snd kv)))) mapping
      then Ok tt
      else Throw (ConfigurationError (lit "Invalid channel mapping given"))
  end.

Section Bridge.
Context {host : Host}.

(** The canonical IRC name of a raw mapping value:
    [ircChan.split(' ')[0].toLowerCase()]. *)
Definition ircName (ircChan : jsstring) : jsstring :=
  toLowerCase (hd [] (split 32 ircChan)).


(** The loop of the constructor that fills [this.channelMapping]. *)
Definition buildChannelMapping (raw : obj) : obj :=
  forOwn raw (fun mapping ircChan discordChan =>
                Obj.set mapping discordChan (ircName ircChan)) [].

(** [new Bot(options)]. *)
Definition Bot_new (options : Options) : result Bot :=
  if negb (truthy_opt (o_server options)) then Throw (missing "server")
  else if negb (truthy_opt (o_nickname options)) then Throw (missing "nickname")
  else match o_channelMapping options with
  | None => Throw (missing "channelMapping")
  | Some raw =>
  if negb (truthy_opt (o_discordToken options))
  then Throw (missing "discordToken")
  else
    (_ <- validateChannelMapping raw ;;
     let mapping := buildChannelMapping raw in
     Ok {| server := or_else (o_server options) [];
           nickname := or_else (o_nickname options) [];
           discordToken := or_else (o_discordToken options) [];
           commandCharacters :=
             match o_commandCharacters options with
             | Some l => l
             | None => []
             end;
           ircNickColor :=
             match o_ircNickColor options with
             | Some false => false
             | _ => true
             end;
           channels := Obj.values raw;
           channelMapping := mapping;
           invertedMapping := Obj.invert mapping;
           autoSendCommands :=
             match o_autoSendCommands options with
             | Some l => l
             | None => []
             end |})%js
  end.

(** [Bot.getDiscordNicknameOnServer(user, guild)]. *)
Definition getDiscordNicknameOnServer (user : User) (guild : Guild)
    : jsstring :=
  match find_member_by_id guild (u_id user) with
  | Some userDetails => or_else (m_nickname userDetails) (u_username user)
  | None => u_username user
  end.

(** The three string replacements done for one mentioned user. *)
Definition replaceMention (guild : Guild) (content : jsstring)
    (mention : User) : jsstring :=
  let displayName := getDiscordNicknameOnServer mention guild in
  replace
    (replace
       (replace content (lit "<@" ++ u_id mention ++ lit ">")
                (lit "@" ++ displayName))
       (lit "<@!" ++ u_id mention ++ lit ">") (lit "@" ++ displayName))
    (lit "<@&" ++ u_id mention ++ lit ">") (lit "@" ++ displayName).

(** [/\n|\r\n|\r/]. *)
Definition match_newline (s : jsstring) : option (unit * nat) :=
  match s with
  | c :: r =>
      if N.eqb c 10 then Some (tt, 1)
      else if N.eqb c 13 then
        match r with
        | d :: _ => if N.eqb d 10 then Some (tt, 2) else Some (tt, 1)
        | [] => Some (tt, 1)
        end
      else None
  | [] => None
  end.

(** [/<#(\d+)>/]: the capture is the run of digits. *)
Definition match_channel_ref (s : jsstring) : option (jsstring * nat) :=
  match s with
  | a :: b :: r =>
      if N.eqb a 60 && N.eqb b 35 then
        match span is_digit r with
        | ((_ :: _) as digits, c :: _) =>
            if N.eqb c 62 then Some (digits, 3 + List.length digits)
            else None
        | _ => None
        end
      else None
  | _ => None
  end.

(** [/<(:\w+:)\d+>/]: the capture is the name between its colons. *)
Definition match_emote (s : jsstring) : option (jsstring * nat) :=
  match s with
  | a :: b :: r =>
      if N.eqb a 60 && N.eqb b 58 then
        match span is_word r with
        | ((_ :: _) as name, c :: r1) =>
            if N.eqb c 58 then
              match span is_digit r1 with
              | ((_ :: _) as digits, e :: _) =>
                  if N.eqb e 62
                  then Some (58%N :: name ++ [58%N],
                             4 + List.length name + List.length digits)
                  else None
              | _ => None
              end
            else None
        | _ => None
        end
      else None
  | _ => None
  end.

(** The channel-reference token of the id [id]. *)
Definition channelRef (id : jsstring) : jsstring :=
  lit "<#" ++ id ++ lit ">".

(** The replacer of the channel pass: [channel.name] of an [undefined]
    channel throws. *)
Definition channelReplacer (discord : Discord) (channelId : jsstring)
    : result jsstring :=
  match channels_get (d_channels discord) channelId with
  | Some channel => Ok (lit "#" ++ ch_name channel)
  | None => Throw TypeError
  end.

(** The text of [parseText] after the [reduce] over the mentioned users. *)
Definition mentionsReplaced (message : Message) : jsstring :=
  fold_left (replaceMention (msg_guild message))
            (msg_mentions_users message) (msg_content message).

(** [parseText(message)]. *)
Definition parseText (discord : Discord) (message : Message)
    : result jsstring :=
  let text := mentionsReplaced message in
  (t1 <- replace_all match_newline (fun _ => Ok (lit " ")) text ;;
   t2 <- replace_all match_channel_ref (channelReplacer discord) t1 ;;
   replace_all match_emote (fun emoteName => Ok emoteName) t2)%js.

(** [isCommandMessage(message)]: [message[0]] is [undefined] for the
    empty string, which no configured character equals. *)
Definition isCommandMessage (bot : Bot) (message : jsstring) : bool :=
  match message with
  | [] => false
  | c :: _ => existsb (fun x => jseqb x [c]) (commandCharacters bot)
  end.

(** The index computed at lines 165-166; [None] is the [NaN] that the
    empty nickname gives. *)
Definition colorIndex (nickname : jsstring) : option N :=
  match nickname with
  | [] => None
  | c :: _ =>
      Some ((c + N.of_nat (List.length nickname))
              mod N.of_nat (List.length NICK_COLORS))%N
  end.

(** [NICK_COLORS[colorIndex]]. *)
Definition colorFor (nickname : jsstring) : option jsstring :=
  match colorIndex nickname with
  | Some i => nth_error NICK_COLORS (N.to_nat i)
  | None => None
  end.

Definition displayUsernameOf (bot : Bot) (nickname : jsstring) : jsstring :=
  if ircNickColor bot then colors_wrap (colorFor nickname) nickname
  else nickname.

Inductive irc_call : Type :=
  | Say (target text : jsstring)
  | Join (channel : jsstring).

(** [sendToIRC(message)]. *)
Definition sendToIRC (bot : Bot) (discord : Discord) (message : Message)
    : Eff irc_call unit :=
  let author := msg_author message in
  if jseqb (u_id author) (u_id (d_user discord)) then eret tt
  else
    let channelName := lit "#" ++ msg_channel_name message in
    match Obj.get (channelMapping bot) channelName with
    | None => eret tt
    | Some ircChannel =>
        if truthy ircChannel then
          let fromGuild := msg_guild message in
          let nickname := getDiscordNicknameOnServer author fromGuild in
          (text <- lift (parseText discord message) ;;
           let displayUsername := displayUsernameOf bot nickname in
           if isCommandMessage bot text then
             let prelude :=
               lit "Command sent from Discord by " ++ nickname ++ lit ":" in
             emit (Say ircChannel prelude) ;;
             emit (Say ircChannel text)
           else
             (if truthy text
              then emit (Say ircChannel
                           (lit "<" ++ displayUsername ++ lit "> " ++ text))
              else eret tt) ;;
             match msg_attachments message with
             | Some ((_ :: _) as attachments) =>
                 forEach attachments (fun a =>
                   emit (Say ircChannel
                           (lit "<" ++ displayUsername ++ lit "> "
                              ++ a_url a)))
             | _ => eret tt
             end)%eff
        else eret tt
    end.

(** The [invite] listener of [attachListeners]; [this.invertedMapping],
    made by [_.invert], is a plain object. *)
Definition onInvite (bot : Bot) (channel from : jsstring)
    : Eff irc_call unit :=
  if negb (Obj.truthy_property (Obj.lookup (invertedMapping bot) channel))
  then eret tt
  else emit (Join channel).

(** ** IRC to Discord *)

Definition word_at (s : jsstring) (k : nat) : bool :=
  match nth_error s k with
  | Some c => is_word c
  | None => false
  end.

(** The assertion [\b] after [k] units of a run of non-space units (what
    follows the run is a space or the end of the input, no word unit). *)
Definition boundary_after (run : jsstring) (k : nat) : bool :=
  xorb (word_at run (pred k)) (word_at run k).

(** Backtracking of the greedy [[^\s]+] in front of [\b]: the longest
    prefix of the run, one unit at least, that ends at a word boundary. *)
Fixpoint last_boundary (run : jsstring) (k : nat) : option nat :=
  match k with
  | O => None
  | S k' => if boundary_after run k then Some k else last_boundary run k'
  end.

Definition not_space (c : N) : bool := negb (is_space c).

(** [/@[^\s]+\b/]: the capture is [match.substring(1)]. *)
Definition match_mention (s : jsstring) : option (jsstring * nat) :=
  match s with
  | c :: r =>
      if N.eqb c 64 then
        let run := fst (span not_space r) in
        match last_boundary run (List.length run) with
        | Some k => Some (firstn k run, S k)
        | None => None
        end
      else None
  | [] => None
  end.

(** The replacer of the mention pass (lines 206-223); [search] is
    [match.substring(1)], so [match] is ["@" + search]. The member looked up
    by id is dereferenced unguarded. *)
Definition mentionReplacer (discord : Discord) (guild : Guild)
    (search : jsstring) : result jsstring :=
  match find_member_by_nickname guild search with
  | Some nickUser => Ok (member_toString nickUser)
  | None =>
      match find_user_by_username (d_users discord) search with
      | Some user =>
          match find_member_by_id guild (u_id user) with
          | None => Throw TypeError
          | Some member =>
              let nickname := m_nickname member in
              if negb (truthy_opt nickname) || opt_eqb nickname search
              then Ok (user_toString user)
              else Ok (lit "@" ++ search)
          end
      | None => Ok (lit "@" ++ search)
      end
  end.

(** [text.replace(/@[^\s]+\b/g, ...)] of [sendToDiscord]. *)
Definition withMentions (discord : Discord) (guild : Guild)
    (text : jsstring) : result jsstring :=
  replace_all match_mention (mentionReplacer discord guild) text.

(** The mention token as the specification words it, to compare with
    [match_mention]: the whole run of non-whitespace units after [@]. *)
Definition match_mention_spec (s : jsstring) : option (jsstring * nat) :=
  match s with
  | c :: r =>
      if N.eqb c 64 then
        match fst (span not_space r) with
        | [] => None
        | (_ :: _) as run => Some (run, S (List.length run))
        end
      else None
  | [] => None
  end.

Definition withMentions_spec (discord : Discord) (guild : Guild)
    (text : jsstring) : result jsstring :=
  replace_all match_mention_spec (mentionReplacer discord guild) text.

(** The mention token in words, for the text [r] that follows an [@]: the
    first [k] units of [r] can be a token when there is one unit at least,
    none of them is whitespace, and a word boundary follows them, that is, of
    the last of them and the unit after them exactly one is a word unit (the
    end of the text counts as no word unit). The token is the longest. *)
Definition word_unit (u : option N) : bool :=
  match u with
  | Some c => is_word c
  | None => false
  end.

Definition token_end (r : jsstring) (k : nat) : Prop :=
  1 <= k <= List.length r /\
  (forall c, In c (firstn k r) -> is_space c = false) /\
  word_unit (nth_error r (k - 1)) <> word_unit (nth_error r k).

Definition token_length (r : jsstring) (k : nat) : Prop :=
  token_end r k /\ forall j, token_end r j -> j <= k.

Inductive discord_call : Type :=
  | SendMessage (channel : Channel) (text : jsstring).

(** [sendToDiscord(author, channel, text)]. What the lookup finds on the
    prototype is truthy and has no [slice]: the call
    [discordChannelName.slice(1)] throws a TypeError. *)
Definition sendToDiscord (bot : Bot) (discord : Discord)
    (author channel text : jsstring) : Eff discord_call unit :=
  match Obj.lookup (invertedMapping bot) (toLowerCase channel) with
  | Obj.Undefined => eret tt
  | Obj.Inherited => lift (Throw TypeError)
  | Obj.Own discordChannelName =>
      if truthy discordChannelName then
        match find_channel_by_name
                (filter (fun c => jseqb (ch_type c) (lit "text"))
                        (d_channels discord))
                (skipn 1 discordChannelName) with
        | None => eret tt
        | Some discordChannel =>
            (mentions <- lift (withMentions discord (ch_guild discordChannel)
                                            text) ;;
             let withAuthor := lit "**<" ++ author ++ lit ">** " ++ mentions in
             emit (SendMessage discordChannel withAuthor))%eff
        end
      else eret tt
  end.

(** The [notice] and [action] listeners. *)
Definition onNotice (bot : Bot) (discord : Discord)
    (author to text : jsstring) : Eff discord_call unit :=
  sendToDiscord bot discord author to (lit "*" ++ text ++ lit "*").

Definition onAction (bot : Bot) (discord : Discord)
    (author to text : jsstring) : Eff discord_call unit :=
  sendToDiscord bot discord author to (lit "_" ++ text ++ lit "_").

End Bridge.

(** ** Connecting: the options of the IRC client and the [registered]
    listener *)

Module Val.

(** The values that the options of the IRC client hold. *)
Inductive jsval : Type :=
  | VString (s : jsstring)
  | VBool (b : bool)
  | VNumber (n : N)
  | VStrings (l : list jsstring).

Definition vobj := list (jsstring * jsval).

Fixpoint get (o : vobj) (k : jsstring) : option jsval :=
  match o with
  | [] => None
  | (k', v) :: r => if jseqb k' k then Some v else get r k
  end.

Fixpoint set (o : vobj) (k : jsstring) (v : jsval) : vobj :=
  match o with
  | [] => [(k, v)]
  | (k', v') :: r =>
      if jseqb k' k then (k, v) :: r else (k', v') :: set r k v
  end.

(** [{ ...target, ...source }]: each property of [source] is set on a copy
    of [target], in order. *)
Definition spread (target source : vobj) : vobj :=
  fold_left (fun o kv => set o (fst kv) (snd kv)) source target.

End Val.

(** The object literal of [connect]; [this.ircOptions], which the
    constructor copies from the options as it is ([undefined] when the
    configuration has none), is the second argument. *)
Definition ircDefaults (bot : Bot) : Val.vobj :=
  [ (lit "userName", Val.VString (nickname bot));
    (lit "realName", Val.VString (nickname bot));
    (lit "channels", Val.VStrings (channels bot));
    (lit "floodProtection", Val.VBool true);
    (lit "floodProtectionDelay", Val.VNumber 500);
    (lit "retryCount", Val.VNumber 10) ].

Definition ircOptionsOf (bot : Bot) (ircOptions : option Val.vobj)
    : Val.vobj :=
  Val.spread (ircDefaults bot)
             (match ircOptions with Some o => o | None => [] end).

Inductive connect_call : Type :=
  | Login (token : jsstring)
  | NewIrcClient (server nick : jsstring) (options : Val.vobj).

(** [connect()], up to the listeners. *)
Definition connect (bot : Bot) (ircOptions : option Val.vobj)
    : Eff connect_call unit :=
  (emit (Login (discordToken bot)) ;;
   emit (NewIrcClient (server bot) (nickname bot)
                      (ircOptionsOf bot ircOptions)))%eff.

Inductive raw_call : Type :=
  | Send (args : list jsstring).

(** The [registered] listener: [this.ircClient.send(...element)] for each
    configured command. *)
Definition onRegistered (bot : Bot) : Eff raw_call unit :=
  forEach (autoSendCommands bot) (fun element => emit (Send element)).

(** A text without [<] and without line breaks: no pass of [parseText]
    has anything to rewrite in it. *)
Definition plain (s : jsstring) : Prop :=
  ~ In 60%N s /\ ~ In 10%N s /\ ~ In 13%N s.

(** ** A host for concrete runs

    Lower-casing of Basic Latin, the colour codes of node-irc
    ([lib/colors.js]) and the mention forms of discord.js. Strings of the
    examples are ASCII, where [ascii_lower] is [toLowerCase]. *)

Module Node.

Definition lower_unit (c : N) : N :=
  if between 65 90 c then (c + 32)%N else c.

Definition ascii_lower (s : jsstring) : jsstring := map lower_unit s.

Definition codes : obj :=
  map (fun kv => (lit (fst kv), 3%N :: lit (snd kv)))
    [("white", "00"); ("black", "01"); ("dark_blue", "02");
     ("dark_green", "03"); ("light_red", "04"); ("dark_red", "05");
     ("magenta", "06"); ("orange", "07"); ("yellow", "08");
     ("light_green", "09"); ("cyan", "10"); ("light_cyan", "11");
     ("light_blue", "12"); ("light_magenta", "13"); ("gray", "14");
     ("light_gray", "15")]%string.

(** [irc.colors.wrap(color, text)] with the default reset code. *)
Definition wrap (color : option jsstring) (text : jsstring) : jsstring :=
  match color with
  | Some name =>
      match Obj.get codes name with
      | Some code => code ++ text ++ [15%N]
      | None => text
      end
  | None => text
  end.

Definition userMention (u : User) : jsstring :=
  lit "<@" ++ u_id u ++ lit ">".

Definition memberMention (m : GuildMember) : jsstring :=
  lit "<@" ++ (if truthy_opt (m_nickname m) then lit "!" else [])
    ++ m_id m ++ lit ">".

Definition ascii_lower_nonempty (s : jsstring)
    : s <> [] -> ascii_lower s <> [] :=
  match s with
  | [] => fun H _ => H eq_refl
  | c :: r => fun _ E => nil_cons (eq_sym E)
  end.

Definition host : Host := {|
  toLowerCase := ascii_lower;
  toLowerCase_nonempty := ascii_lower_nonempty;
  colors_wrap := wrap;
  user_toString := userMention;
  member_toString := memberMention
|}.

End Node.

(** ** Objects for concrete runs

    A configuration with one bridged channel and two command characters, a
    guild with a member without nickname and a member with one, and the
    client's text channel. *)

Module Fixture.

Definition options : Options := {|
  o_server := Some (lit "irc.bottest.org");
  o_nickname := Some (lit "Discord_IRC");
  o_channelMapping := Some [(lit "#discord", lit "#irc channelKey")];
  o_discordToken := Some (lit "whatapassword");
  o_commandCharacters := Some [lit "!"; lit "."];
  o_ircNickColor := None;
  o_autoSendCommands := None
|}.


Definition bot : Bot := Eval vm_compute in
  match @Bot_new Node.host options as r
        return match r with Ok _ => Bot | Throw _ => unit end with
  | Ok b => b
  | Throw _ => tt
  end.

Definition testuser : User :=
  {| u_id := lit "123"; u_username := lit "testuser" |}.

Definition bob : User :=
  {| u_id := lit "124"; u_username := lit "bob" |}.

Definition guild : Guild := {|
  g_members := [ {| m_user := testuser; m_nickname := None |};
                 {| m_user := bob; m_nickname := Some (lit "bobby") |} ]
|}.

Definition textChannel : Channel := {|
  ch_id := lit "1234";
  ch_name := lit "discord";
  ch_type := lit "text";
  ch_guild := guild
|}.

Definition discord : Discord := {|
  d_user := {| u_id := lit "testid"; u_username := lit "bot" |};
  d_channels := [textChannel];
  d_users := [testuser; bob]
|}.

Definition author (id name : string) : User :=
  {| u_id := lit id; u_username := lit name |}.

Definition message (who : User) (channel content : string)
    (mentions : list User) (attachments : option (list Attachment))
    : Message := {|
  msg_content := lit content;
  msg_mentions_users := mentions;
  msg_channel_name := lit channel;
  msg_author := who;
  msg_guild := guild;
  msg_attachments := attachments
|}.

Definition other : User := author "not bot id" "otherauthor".
Definition tester : User := author "not bot id" "test".
Definition image : Attachment := {| a_url := lit "https://image/url.jpg" |}.

(** A name between a colour code and the reset code of node-irc. *)
Definition colored (code name : string) : jsstring :=
  3%N :: lit code ++ lit name ++ [15%N].

(** The example configuration with nick colours switched off. *)
Definition plainBot : Bot := Eval vm_compute in
  {| server := server bot;
     nickname := nickname bot;
     discordToken := discordToken bot;
     commandCharacters := commandCharacters bot;
     ircNickColor := false;
     channels := channels bot;
     channelMapping := channelMapping bot;
     invertedMapping := invertedMapping bot;
     autoSendCommands := autoSendCommands bot |}.

(** A guild whose only member, the author of the examples, has a
    nickname. *)
Definition nickGuild : Guild := {|
  g_members := [ {| m_user := other;
                    m_nickname := Some (lit "discord-nickname") |} ]
|}.

End Fixture.

(** ** More objects for concrete runs *)

Module Cases.

(** The example configuration without a nickname. *)
Definition noNickname : Options := {|
  o_server := Some (lit "irc.bottest.org");
  o_nickname := None;
  o_channelMapping := Some [(lit "#discord", lit "#irc channelKey")];
  o_discordToken := None;
  o_commandCharacters := None;
  o_ircNickColor := None;
  o_autoSendCommands := None
|}.

(** The example configuration with two commands to send on registration. *)
Definition identify : list (list jsstring) :=
  [ [lit "PRIVMSG"; lit "NickServ"; lit "IDENTIFY password"];
    [lit "MODE"; lit "Discord_IRC"; lit "+x"] ].

Definition withCommands : Options := {|
  o_server := Some (lit "irc.bottest.org");
  o_nickname := Some (lit "Discord_IRC");
  o_channelMapping := Some [(lit "#discord", lit "#irc channelKey")];
  o_discordToken := Some (lit "whatapassword");
  o_commandCharacters := None;
  o_ircNickColor := None;
  o_autoSendCommands := Some identify
|}.

Definition commandsBot : Bot := Eval vm_compute in
  match @Bot_new Node.host withCommands as r
        return match r with Ok _ => Bot | Throw _ => unit end with
  | Ok b => b
  | Throw _ => tt
  end.

(** Options of the IRC client given in the configuration. *)
Definition secure : Val.vobj :=
  [ (lit "port", Val.VNumber 6697);
    (lit "retryCount", Val.VNumber 2) ].

(** A client that sees a voice channel named like the bridged one, and no
    text channel. *)
Definition voiceOnly : Discord := {|
  d_user := {| u_id := lit "testid"; u_username := lit "bot" |};
  d_channels := [ {| ch_id := lit "1235"; ch_name := lit "discord";
                     ch_type := lit "voice"; ch_guild := Fixture.guild |} ];
  d_users := [Fixture.testuser; Fixture.bob]
|}.

(** A client that knows a user who is not a member of the guild. *)
Definition ghost : User := {| u_id := lit "125"; u_username := lit "ghost" |}.

Definition withGhost : Discord := {|
  d_user := {| u_id := lit "testid"; u_username := lit "bot" |};
  d_channels := [Fixture.textChannel];
  d_users := [Fixture.testuser; Fixture.bob; ghost]
|}.

(** A body of two lines. *)
Definition twoLines : Message := {|
  msg_content := lit "hi" ++ [13%N; 10%N] ++ lit "hi";
  msg_mentions_users := [];
  msg_channel_name := lit "discord";
  msg_author := Fixture.other;
  msg_guild := Fixture.guild;
  msg_attachments := None
|}.

(** A body with an attachment. *)
Definition withImage : Message :=
  Fixture.message Fixture.other "discord" "Look!" [] (Some [Fixture.image]).

End Cases.

(** * Properties *)

(** ** Strings and dictionaries *)

Lemma jseqb_eq : forall a b, jseqb a b = true <-> a = b.
Proof.
  induction a as [|x a IH]; destruct b as [|y b]; simpl; split;
    try congruence; try discriminate; auto.
  - intros H. apply andb_true_iff in H as [Hx Hr].
    apply N.eqb_eq in Hx. apply IH in Hr. congruence.
  - intros H. injection H as -> ->.
    rewrite N.eqb_refl. simpl. apply IH. reflexivity.
Qed.

Lemma jseqb_refl : forall a, jseqb a a = true.
Proof. intros a. apply jseqb_eq. reflexivity. Qed.

Lemma jseqb_neq : forall a b, jseqb a b = false <-> a <> b.
Proof.
  intros a b. split.
  - intros H E. apply jseqb_eq in E. congruence.
  - intros H. destruct (jseqb a b) eqn:E; [|reflexivity].
    apply jseqb_eq in E. contradiction.
Qed.

Lemma truthy_nonempty : forall s, truthy s = true <-> s <> [].
Proof. intros [|c r]; simpl; split; congruence. Qed.

Module ObjFacts.

Lemma get_set_same : forall o k v, Obj.get (Obj.set o k v) k = Some v.
Proof.
  induction o as [|[k' v'] r IH]; intros k v; simpl.
  - rewrite jseqb_refl. reflexivity.
  - destruct (jseqb k' k) eqn:E; simpl.
    + rewrite jseqb_refl. reflexivity.
    + rewrite E. apply IH.
Qed.

Lemma get_set_other : forall o k v k',
  k <> k' -> Obj.get (Obj.set o k v) k' = Obj.get o k'.
Proof.
  induction o as [|[k0 v0] r IH]; intros k v k' Hne; simpl.
  - apply jseqb_neq in Hne. rewrite Hne. reflexivity.
  - destruct (jseqb k0 k) eqn:E; simpl.
    + apply jseqb_eq in E. subst k0.
      apply jseqb_neq in Hne. rewrite Hne. reflexivity.
    + destruct (jseqb k0 k'); [reflexivity | apply IH; assumption].
Qed.

Lemma get_some_in : forall o k v, Obj.get o k = Some v -> In (k, v) o.
Proof.
  induction o as [|[k' v'] r IH]; intros k v; simpl; [discriminate|].
  destruct (jseqb k' k) eqn:E.
  - apply jseqb_eq in E. intros H. left. congruence.
  - intros H. right. apply IH. assumption.
Qed.

Lemma get_none_keys : forall o k, Obj.get o k = None <-> ~ In k (Obj.keys o).
Proof.
  induction o as [|[k' v'] r IH]; intros k; simpl.
  - tauto.
  - destruct (jseqb k' k) eqn:E.
    + apply jseqb_eq in E. split; [discriminate | intros H; exfalso; auto].
    + apply jseqb_neq in E. rewrite IH. tauto.
Qed.




Lemma set_in : forall o k v k' v',
  In (k', v') (Obj.set o k v) -> (k' = k /\ v' = v) \/ In (k', v') o.
Proof.
  induction o as [|[k0 v0] r IH]; intros k v k' v'; simpl.
  - intros [E|[]]. injection E as <- <-. auto.
  - destruct (jseqb k0 k) eqn:E; simpl.
    + intros [H|H]; [injection H as <- <-; auto | auto].
    + intros [H|H]; [auto|]. apply IH in H. tauto.
Qed.

(** Looking [invert o] up is looking for the last key with that value. *)
Lemma get_invert_from : forall o acc x,
  Obj.get (fold_left (fun res kv => Obj.set res (snd kv) (fst kv)) o acc) x =
  match Obj.last_key_of o x with
  | Some k => Some k
  | None => Obj.get acc x
  end.
Proof.
  induction o as [|[k v] r IH]; intros acc x; simpl; [reflexivity|].
  rewrite IH. destruct (Obj.last_key_of r x); [reflexivity|].
  destruct (jseqb v x) eqn:E.
  - apply jseqb_eq in E. subst v. apply get_set_same.
  - apply jseqb_neq in E. apply get_set_other. assumption.
Qed.

Lemma get_invert : forall o x,
  Obj.get (Obj.invert o) x = Obj.last_key_of o x.
Proof.
  intros o x. unfold Obj.invert, Obj.forOwn. rewrite get_invert_from.
  destruct (Obj.last_key_of o x); reflexivity.
Qed.

Lemma last_key_of_in : forall o x k,
  Obj.last_key_of o x = Some k -> In (k, x) o.
Proof.
  induction o as [|[k0 v0] r IH]; intros x k; simpl; [discriminate|].
  destruct (Obj.last_key_of r x) eqn:E.
  - intros H. injection H as <-. right. apply IH. assumption.
  - destruct (jseqb v0 x) eqn:Ev; [|discriminate].
    apply jseqb_eq in Ev. intros H. injection H as <-. left. congruence.
Qed.



(** What [o[k]] answers for an own property, and for a name that is
    neither an own property nor inherited. *)
Lemma lookup_own : forall o k v,
  Obj.get o k = Some v -> Obj.lookup o k = Obj.Own v.
Proof. intros o k v H. unfold Obj.lookup. rewrite H. reflexivity. Qed.

Lemma lookup_undefined : forall o k,
  Obj.get o k = None -> Obj.inherited k = false ->
  Obj.lookup o k = Obj.Undefined.
Proof. intros o k H I. unfold Obj.lookup. rewrite H, I. reflexivity. Qed.

Lemma lookup_inherited : forall o k,
  Obj.get o k = None -> Obj.inherited k = true ->
  Obj.lookup o k = Obj.Inherited.
Proof. intros o k H I. unfold Obj.lookup. rewrite H, I. reflexivity. Qed.

(** No inherited name starts with [#]: on the names that [sendToIRC] looks
    up, [o[k]] is the lookup among the own properties. *)
Lemma inherited_hash : forall name, Obj.inherited (lit "#" ++ name) = false.
Proof. intros name. reflexivity. Qed.

Lemma lookup_hash : forall o name,
  Obj.lookup o (lit "#" ++ name)
  = match Obj.get o (lit "#" ++ name) with
    | Some v => Obj.Own v
    | None => Obj.Undefined
    end.
Proof.
  intros o name. unfold Obj.lookup. rewrite inherited_hash. reflexivity.
Qed.

End ObjFacts.

(** ** The channel mapping built by the constructor *)

Section ChannelMap.
Context {host : Host}.




Lemma build_in : forall raw acc k x,
  In (k, x)
     (fold_left (fun m kv => Obj.set m (fst kv) (ircName (snd kv))) raw acc) ->
  In (k, x) acc \/ exists v, In (k, v) raw /\ x = ircName v.
Proof.
  induction raw as [|[k0 v0] r IH]; intros acc k x H; simpl in *; [auto|].
  apply IH in H as [H|[v [Hin E]]].
  - apply ObjFacts.set_in in H as [[-> ->]|H]; [|auto].
    right. exists v0. auto.
  - right. exists v. auto.
Qed.

Lemma buildChannelMapping_in : forall raw k x,
  In (k, x) (buildChannelMapping raw) ->
  exists v, In (k, v) raw /\ x = ircName v.
Proof.
  intros raw k x H. apply build_in in H as [[]|H]. exact H.
Qed.

Lemma validate_ok : forall raw,
  validateChannelMapping raw = Ok tt ->
  forall k v, In (k, v) raw -> k <> [] /\ hd [] (split 32 v) <> [].
Proof.
  intros raw H k v Hin. unfold validateChannelMapping in H.
  destruct raw as [|kv0 r]; [discriminate|].
  destruct (forallb _ (kv0 :: r)) eqn:E; [|discriminate].
  rewrite forallb_forall in E. specialize (E _ Hin). simpl in E.
  apply andb_true_iff in E as [Hk Hv].
  split; apply truthy_nonempty; assumption.
Qed.

(** What a successful construction fixes. *)
Lemma Bot_new_inv : forall options bot,
  Bot_new options = Ok bot ->
  exists raw,
    o_channelMapping options = Some raw /\
    validateChannelMapping raw = Ok tt /\
    channelMapping bot = buildChannelMapping raw /\
    invertedMapping bot = Obj.invert (buildChannelMapping raw) /\
    commandCharacters bot =
      match o_commandCharacters options with Some l => l | None => [] end.
Proof.
  intros options bot H. unfold Bot_new in H.
  destruct (negb (truthy_opt (o_server options))); [discriminate|].
  destruct (negb (truthy_opt (o_nickname options))); [discriminate|].
  destruct (o_channelMapping options) as [raw|]; [|discriminate].
  destruct (negb (truthy_opt (o_discordToken options))); [discriminate|].
  destruct (validateChannelMapping raw) as [[]|e] eqn:V; simpl in H;
    [|discriminate].
  injection H as <-. exists raw. simpl. auto.
Qed.

(** Every IRC name stored by a constructed bot is a non-empty string. *)
Lemma forward_truthy : forall options bot c ircChannel,
  Bot_new options = Ok bot ->
  Obj.get (channelMapping bot) c = Some ircChannel ->
  truthy ircChannel = true.
Proof.
  intros options bot c ircChannel Hnew Hget.
  destruct (Bot_new_inv _ _ Hnew) as [raw [_ [Hval [Hmap _]]]].
  rewrite Hmap in Hget. apply ObjFacts.get_some_in in Hget.
  apply buildChannelMapping_in in Hget as [v [Hin ->]].
  apply truthy_nonempty. unfold ircName. apply toLowerCase_nonempty.
  apply (validate_ok _ Hval _ _ Hin).
Qed.

(** Every Discord identifier stored in the inverted mapping of a
    constructed bot is a non-empty string. *)
Lemma inverse_truthy : forall options bot x discordChannelName,
  Bot_new options = Ok bot ->
  Obj.get (invertedMapping bot) x = Some discordChannelName ->
  truthy discordChannelName = true.
Proof.
  intros options bot x d Hnew Hget.
  destruct (Bot_new_inv _ _ Hnew) as [raw [_ [Hval [_ [Hinv _]]]]].
  rewrite Hinv, ObjFacts.get_invert in Hget.
  apply ObjFacts.last_key_of_in in Hget.
  apply buildChannelMapping_in in Hget as [v [Hin _]].
  apply truthy_nonempty. apply (validate_ok _ Hval _ _ Hin).
Qed.


End ChannelMap.

(** ** Routing: what is dropped before any call *)

Section Routing.
Context {host : Host}.

(** X22. A message whose source channel is not found in the mapping of its
    direction makes no call on the other side and throws nothing: for
    Discord the name with [#] in front is no key of [channelMapping]; for
    IRC messages, notices and actions the lower-cased target is no key of
    [invertedMapping] and no name that the mapping inherits. *)
Theorem unmapped_source_is_dropped :
  forall (bot : Bot) (discord : Discord),
    (forall message log,
        Obj.get (channelMapping bot) (lit "#" ++ msg_channel_name message)
          = None ->
        sendToIRC bot discord message log = (log, Ok tt)) /\
    (forall author channel text log,
        Obj.get (invertedMapping bot) (toLowerCase channel) = None ->
        Obj.inherited (toLowerCase channel) = false ->
        sendToDiscord bot discord author channel text log = (log, Ok tt) /\
        onNotice bot discord author channel text log = (log, Ok tt) /\
        onAction bot discord author channel text log = (log, Ok tt)).
Proof.
  intros bot discord. split.
  - intros message log H. unfold sendToIRC.
    destruct (jseqb _ _); [reflexivity|]. rewrite H. reflexivity.
  - intros author channel text log H I.
    unfold onNotice, onAction, sendToDiscord.
    rewrite (ObjFacts.lookup_undefined _ _ H I). auto.
Qed.

(** C6. A Discord message whose author id is the id of the bot's own
    Discord user adds no call to the IRC log, whatever its channel and
    content. *)
Theorem own_message_never_reaches_irc :
  forall (bot : Bot) (discord : Discord) (message : Message) log,
    u_id (msg_author message) = u_id (d_user discord) ->
    sendToIRC bot discord message log = (log, Ok tt).
Proof.
  intros bot discord message log H. unfold sendToIRC.
  rewrite H, jseqb_refl. reflexivity.
Qed.

(** X23. For a constructed bot and every invite, the listener issues the
    single call [join(channel)] when the invited channel is a key of the
    inverted mapping or a name that the mapping inherits, and no call at all
    otherwise. *)
Theorem invite_joins_mapped_or_inherited :
  forall options bot channel from log,
    Bot_new options = Ok bot ->
    (In channel (Obj.keys (invertedMapping bot))
     \/ Obj.inherited channel = true ->
     onInvite bot channel from log = (log ++ [Join channel], Ok tt)) /\
    (~ In channel (Obj.keys (invertedMapping bot)) ->
     Obj.inherited channel = false ->
     onInvite bot channel from log = (log, Ok tt)).
Proof.
  intros options bot channel from log Hnew. unfold onInvite, Obj.lookup.
  split.
  - intros Hin.
    destruct (Obj.get (invertedMapping bot) channel) as [d|] eqn:E.
    + simpl. rewrite (inverse_truthy _ _ _ _ Hnew E). reflexivity.
    + destruct Hin as [Hin|Hin].
      * apply ObjFacts.get_none_keys in E. contradiction.
      * rewrite Hin. reflexivity.
  - intros Hnot I. apply ObjFacts.get_none_keys in Hnot. rewrite Hnot, I.
    reflexivity.
Qed.

End Routing.

(** ** Discord to IRC: colour, commands, body and attachments *)

Section ToIRC.
Context {host : Host}.

Lemma NICK_COLORS_length : List.length NICK_COLORS = 12.
Proof. reflexivity. Qed.

(** C9. For every non-empty name, the colour is the element of the fixed
    list of 12 colours at index (code of the first unit + length) mod 12;
    the choice reads nothing but the name, so every bot with colouring on
    wraps the same name in the same colour at every call. *)
Theorem nick_color_is_function_of_name :
  forall name : jsstring,
    name <> [] ->
    List.length NICK_COLORS = 12 /\
    exists color,
      nth_error NICK_COLORS
        (N.to_nat ((hd 0%N name + N.of_nat (List.length name)) mod 12))
        = Some color /\
      In color NICK_COLORS /\
      colorFor name = Some color /\
      (forall bot, ircNickColor bot = true ->
                   displayUsernameOf bot name = colors_wrap (Some color) name).
Proof.
  intros name Hne. split; [reflexivity|].
  destruct name as [|c rest]; [congruence|].
  set (i := ((c + N.of_nat (List.length (c :: rest))) mod 12)%N).
  assert (Hi : (i < 12)%N) by (unfold i; apply N.mod_lt; discriminate).
  assert (Hlt : N.to_nat i < List.length NICK_COLORS)
    by (rewrite NICK_COLORS_length; lia).
  destruct (nth_error NICK_COLORS (N.to_nat i)) as [color|] eqn:E.
  - exists color. split; [exact E|]. split; [|split].
    + apply nth_error_In with (n := N.to_nat i). exact E.
    + unfold colorFor, colorIndex. exact E.
    + intros bot Hc. unfold displayUsernameOf, colorFor, colorIndex.
      rewrite Hc. fold i. simpl hd in E. unfold i in *.
      change (N.of_nat (List.length NICK_COLORS)) with 12%N.
      rewrite E. reflexivity.
  - apply nth_error_None in E. lia.
Qed.

Lemma forEach_emit : forall (X C : Type) (f : X -> C) (l : list X) log,
  forEach l (fun a => emit (f a)) log = (log ++ map f l, Ok tt).
Proof.
  intros X C f. induction l as [|x r IH]; intros log; simpl.
  - unfold eret. rewrite app_nil_r. reflexivity.
  - unfold ebind, emit at 1. rewrite IH, <- app_assoc. reflexivity.
Qed.

(** [body[0]] is one of the configured command characters. *)
Lemma isCommandMessage_spec : forall bot text,
  isCommandMessage bot text = true <->
  exists c rest, text = c :: rest /\ In [c] (commandCharacters bot).
Proof.
  intros bot [|c rest]; simpl.
  - split; [discriminate | intros [c [rest [E _]]]; discriminate].
  - rewrite existsb_exists. split.
    + intros [x [Hin E]]. apply jseqb_eq in E. subst x. exists c, rest. auto.
    + intros [c' [rest' [E Hin]]]. injection E as <- <-.
      exists [c]. split; [assumption | apply jseqb_refl].
Qed.

(** C7. For a message that reaches the relay step (constructed bot, author
    other than the bot, channel found in the mapping, body transformed to
    [text]): [text] is a command exactly when its first unit is one of the
    configured command characters, never when none is configured; and for a
    command, [sendToIRC] makes exactly two [say] calls on the mapped IRC
    channel, the prelude with the plain nickname (no colour wrapper) first
    and the transformed body second. *)
Theorem command_message_sends_prelude_and_body :
  forall options bot discord message ircChannel text log,
    Bot_new options = Ok bot ->
    u_id (msg_author message) <> u_id (d_user discord) ->
    Obj.get (channelMapping bot) (lit "#" ++ msg_channel_name message)
      = Some ircChannel ->
    parseText discord message = Ok text ->
    (isCommandMessage bot text = true <->
     exists c rest, text = c :: rest /\ In [c] (commandCharacters bot)) /\
    (o_commandCharacters options = None -> isCommandMessage bot text = false) /\
    (isCommandMessage bot text = true ->
     sendToIRC bot discord message log =
       (log ++ [Say ircChannel
                  (lit "Command sent from Discord by "
                     ++ getDiscordNicknameOnServer (msg_author message)
                          (msg_guild message)
                     ++ lit ":");
                Say ircChannel text],
        Ok tt)).
Proof.
  intros options bot discord message ircChannel text log
         Hnew Hauthor Hmap Hparse.
  split; [apply isCommandMessage_spec|]. split.
  - intros Hdefault.
    destruct (Bot_new_inv _ _ Hnew) as [raw [_ [_ [_ [_ Hcc]]]]].
    rewrite Hdefault in Hcc. unfold isCommandMessage. rewrite Hcc.
    destruct text; reflexivity.
  - intros Hcmd. unfold sendToIRC.
    apply jseqb_neq in Hauthor. rewrite Hauthor, Hmap.
    rewrite (forward_truthy _ _ _ _ Hnew Hmap).
    unfold ebind, lift. rewrite Hparse, Hcmd.
    unfold emit. rewrite <- app_assoc. reflexivity.
Qed.

(** ** Facts on the two replacement primitives *)

Lemma replace_from_skipn : forall (A : Type) matcher replacer s n,
  @replace_from A matcher replacer n s
  = replace_from matcher replacer 0 (skipn n s).
Proof.
  intros A matcher replacer. induction s as [|c r IH]; intros n.
  - destruct n; reflexivity.
  - destruct n as [|k]; [reflexivity|]. simpl skipn. rewrite <- IH.
    reflexivity.
Qed.

Lemma replace_all_nil : forall (A : Type) matcher replacer,
  @replace_all A matcher replacer [] = Ok [].
Proof. reflexivity. Qed.

(** A match at the head: the replacer's text, then the pass on what
    follows the match. *)
Lemma replace_all_match : forall (A : Type) matcher replacer c r cap n,
  matcher (c :: r) = Some (cap, n) ->
  @replace_all A matcher replacer (c :: r) =
  (out <- replacer cap ;;
   rest <- replace_all matcher replacer (skipn (pred n) r) ;;
   Ok (out ++ rest))%js.
Proof.
  intros A matcher replacer c r cap n H. unfold replace_all. simpl.
  rewrite H, replace_from_skipn. reflexivity.
Qed.

(** No match at the head: the unit is kept. *)
Lemma replace_all_skip : forall (A : Type) matcher replacer c r,
  matcher (c :: r) = None ->
  @replace_all A matcher replacer (c :: r) =
  (rest <- replace_all matcher replacer r ;; Ok (c :: rest))%js.
Proof.
  intros A matcher replacer c r H. unfold replace_all. simpl.
  rewrite H. reflexivity.
Qed.

Lemma replace_all_nonempty : forall (A : Type) matcher replacer,
  (forall s cap n out,
      matcher s = Some (cap, n) -> replacer cap = Ok out -> out <> []) ->
  forall s s',
    s <> [] -> @replace_all A matcher replacer s = Ok s' -> s' <> [].
Proof.
  intros A matcher replacer Hout [|c r] s' Hne H; [congruence|].
  destruct (matcher (c :: r)) as [[cap n]|] eqn:M.
  - rewrite (replace_all_match _ _ replacer _ _ _ _ M) in H. unfold rbind in H.
    destruct (replacer cap) as [out|] eqn:R; [|discriminate].
    destruct (replace_all matcher replacer _) as [rest|]; [|discriminate].
    injection H as <-. specialize (Hout _ _ _ _ M R).
    destruct out; [congruence | discriminate].
  - rewrite (replace_all_skip _ _ replacer _ _ M) in H. unfold rbind in H.
    destruct (replace_all matcher replacer r); [|discriminate].
    injection H as <-. discriminate.
Qed.

Lemma starts_with_app : forall p s,
  starts_with p s = true -> s = p ++ skipn (List.length p) s.
Proof.
  induction p as [|x p IH]; intros [|y s]; simpl; try discriminate; auto.
  intros H. apply andb_true_iff in H as [Hx Hr].
  apply N.eqb_eq in Hx. subst y. f_equal. apply IH. assumption.
Qed.

(** What [find_first] answers is a decomposition of the subject. *)
Lemma find_first_app : forall pat s before after,
  find_first pat s = Some (before, after) -> s = before ++ pat ++ after.
Proof.
  intros pat. induction s as [|c r IH]; intros before after H.
  - simpl in H. destruct (starts_with pat []) eqn:E; [|discriminate].
    injection H as <- <-. apply (starts_with_app _ _ E).
  - simpl in H. destruct (starts_with pat (c :: r)) eqn:E.
    + injection H as <- <-. apply (starts_with_app _ _ E).
    + destruct (find_first pat r) as [[b a]|]; [|discriminate].
      injection H as <- <-. simpl. f_equal. apply IH. reflexivity.
Qed.

Lemma replace_nil : forall pat repl, pat <> [] -> replace [] pat repl = [].
Proof.
  intros [|x p] repl H; [congruence | reflexivity].
Qed.

Lemma GetSubstitution_head : forall matched before after c r,
  c <> 36%N ->
  GetSubstitution matched before after (c :: r)
  = c :: GetSubstitution matched before after r.
Proof.
  intros matched before after c r H. simpl.
  apply N.eqb_neq in H. rewrite H. reflexivity.
Qed.

Lemma replace_nonempty : forall s pat c r,
  s <> [] -> c <> 36%N -> replace s pat (c :: r) <> [].
Proof.
  intros s pat c r Hs Hc. unfold replace.
  destruct (find_first pat s) as [[b a]|]; [|assumption].
  rewrite GetSubstitution_head by assumption.
  destruct b; discriminate.
Qed.

(** ** The transformed body is empty exactly when the body is *)

Lemma replaceMention_nil : forall guild mention,
  replaceMention guild [] mention = [].
Proof.
  intros guild mention. unfold replaceMention.
  repeat rewrite replace_nil by discriminate. reflexivity.
Qed.

Lemma replaceMention_nonempty : forall guild content mention,
  content <> [] -> replaceMention guild content mention <> [].
Proof.
  intros guild content mention H. unfold replaceMention.
  change (lit "@") with [64%N]. simpl app.
  repeat apply replace_nonempty; (assumption || discriminate).
Qed.

Lemma mentionsReplaced_nil_iff : forall message,
  mentionsReplaced message = [] <-> msg_content message = [].
Proof.
  intros message. unfold mentionsReplaced.
  generalize (msg_content message) as content.
  induction (msg_mentions_users message) as [|u us IH]; intros content; simpl.
  - tauto.
  - rewrite IH. split.
    + intros H. destruct content as [|c r]; [reflexivity|].
      exfalso. revert H. apply replaceMention_nonempty. discriminate.
    + intros ->. apply replaceMention_nil.
Qed.

Lemma match_emote_capture : forall s cap n,
  match_emote s = Some (cap, n) -> cap <> [].
Proof.
  intros s cap n. unfold match_emote.
  repeat match goal with
         | |- context [match ?x with _ => _ end] => destruct x
         end; intros H; try discriminate; injection H as <- _; discriminate.
Qed.

Lemma parseText_nil_iff : forall discord message text,
  parseText discord message = Ok text ->
  (text = [] <-> msg_content message = []).
Proof.
  intros discord message text H. rewrite <- mentionsReplaced_nil_iff.
  unfold parseText, rbind in H.
  destruct (replace_all match_newline _ _) as [t1|] eqn:E1; [|discriminate].
  destruct (replace_all match_channel_ref _ t1) as [t2|] eqn:E2; [|discriminate].
  destruct (mentionsReplaced message) as [|c r] eqn:Em.
  - rewrite replace_all_nil in E1. injection E1 as <-.
    rewrite replace_all_nil in E2. injection E2 as <-.
    rewrite replace_all_nil in H. injection H as <-. tauto.
  - split; [|discriminate]. intros ->. exfalso.
    assert (H1 : t1 <> []).
    { eapply replace_all_nonempty; [| |exact E1]; [|discriminate].
      intros s cap n out _ R. injection R as <-. discriminate. }
    assert (H2 : t2 <> []).
    { eapply replace_all_nonempty; [| |exact E2]; [|assumption].
      intros s cap n out _ R. unfold channelReplacer in R.
      destruct (channels_get _ cap); [|discriminate].
      injection R as <-. discriminate. }
    eapply replace_all_nonempty; [| |exact H| ]; [|exact H2|reflexivity].
    intros s cap n out M R. injection R as <-.
    apply (match_emote_capture _ _ _ M).
Qed.

(** C8. For a message that reaches the relay step and whose transformed
    body [text] is not a command: a non-empty [text] gives the body line
    first and then one line per attachment URL in attachment order; an
    empty [text] gives the attachment lines alone, no body line; and [text]
    is empty exactly when the message body is. *)
Theorem body_and_attachment_lines :
  forall options bot discord message ircChannel text log,
    Bot_new options = Ok bot ->
    u_id (msg_author message) <> u_id (d_user discord) ->
    Obj.get (channelMapping bot) (lit "#" ++ msg_channel_name message)
      = Some ircChannel ->
    parseText discord message = Ok text ->
    isCommandMessage bot text = false ->
    let displayUsername :=
      displayUsernameOf bot
        (getDiscordNicknameOnServer (msg_author message) (msg_guild message)) in
    let urlLines :=
      map (fun a => Say ircChannel
                      (lit "<" ++ displayUsername ++ lit "> " ++ a_url a))
          (match msg_attachments message with Some l => l | None => [] end) in
    (text <> [] ->
     sendToIRC bot discord message log =
       (log ++ Say ircChannel (lit "<" ++ displayUsername ++ lit "> " ++ text)
              :: urlLines,
        Ok tt)) /\
    (text = [] ->
     sendToIRC bot discord message log = (log ++ urlLines, Ok tt)) /\
    (text = [] <-> msg_content message = []).
Proof.
  intros options bot discord message ircChannel text log
         Hnew Hauthor Hmap Hparse Hcmd displayUsername urlLines.
  assert (Hsend : sendToIRC bot discord message log =
    (log ++ (if truthy text
             then [Say ircChannel
                     (lit "<" ++ displayUsername ++ lit "> " ++ text)]
             else []) ++ urlLines, Ok tt)).
  { unfold sendToIRC. apply jseqb_neq in Hauthor. rewrite Hauthor, Hmap.
    rewrite (forward_truthy _ _ _ _ Hnew Hmap).
    unfold ebind at 1. unfold lift. rewrite Hparse, Hcmd.
    fold displayUsername.
    assert (Hatt : forall log',
      match msg_attachments message with
      | Some ((_ :: _) as attachments) =>
          forEach attachments (fun a =>
            emit (Say ircChannel
                    (lit "<" ++ displayUsername ++ lit "> " ++ a_url a)))
      | _ => eret tt
      end log' = (log' ++ urlLines, Ok tt)).
    { intros log'. unfold urlLines.
      destruct (msg_attachments message) as [[|a l]|].
      - unfold eret. simpl. rewrite app_nil_r. reflexivity.
      - apply forEach_emit.
      - unfold eret. simpl. rewrite app_nil_r. reflexivity. }
    unfold ebind. destruct (truthy text); unfold emit, eret; rewrite Hatt.
    + rewrite <- app_assoc. reflexivity.
    + reflexivity. }
  split; [|split].
  - intros Hne. rewrite Hsend. apply truthy_nonempty in Hne. rewrite Hne.
    reflexivity.
  - intros ->. rewrite Hsend. reflexivity.
  - apply (parseText_nil_iff _ _ _ Hparse).
Qed.

(** ** Tokens that start with a unit they do not repeat *)

(** Two occurrences of such tokens in one string either start at the same
    place or do not overlap. *)
Lemma marked_no_overlap : forall m a b u v pre post,
  marked m a -> marked m b ->
  u ++ a ++ v = pre ++ b ++ post ->
  (exists x, u = pre ++ b ++ x) \/ u = pre \/ (exists x, pre = u ++ a ++ x).
Proof.
  assert (Hside : forall m a b l l' v post,
    marked m a -> marked m b -> l <> [] ->
    b = l ++ l' -> a ++ v = l' ++ post -> l' = []).
  { intros m a b l l' v post [ra [-> Ha]] [rb [-> Hb]] Hl Eb Ea.
    destruct l' as [|x l'']; [reflexivity|]. exfalso.
    simpl in Ea. injection Ea as <- _.
    destruct l as [|y l0]; [congruence|].
    simpl in Eb. injection Eb as _ ->. apply Hb. apply in_elt. }
  intros m a b u v pre post Ha Hb E.
  apply app_eq_app in E as [l [[Eu Ep]|[Ep Eu]]].
  - destruct l as [|y l0].
    + right. left. rewrite app_nil_r in Eu. exact Eu.
    + left. apply app_eq_app in Ep as [l' [[Eb Ea]|[El Epost]]].
      * assert (l' = []) by
          (apply (Hside m a b (y :: l0) l' v post); auto; discriminate).
        subst l'. rewrite app_nil_r in Eb. subst b.
        exists []. rewrite app_nil_r. exact Eu.
      * exists l'. rewrite Eu, El. reflexivity.
  - destruct l as [|y l0].
    + right. left. rewrite app_nil_r in Ep. symmetry. exact Ep.
    + right. right. apply app_eq_app in Eu as [l' [[Ea Eb]|[El Ev]]].
      * assert (l' = []) by
          (apply (Hside m b a (y :: l0) l' post v); auto; discriminate).
        subst l'. rewrite app_nil_r in Ea. subst a.
        exists []. rewrite app_nil_r. exact Ep.
      * exists l'. rewrite Ep, El. reflexivity.
Qed.

Lemma digits_not : forall id c,
  forallb is_digit id = true -> is_digit c = false -> ~ In c id.
Proof.
  intros id c Hd Hc Hin. rewrite forallb_forall in Hd.
  rewrite (Hd _ Hin) in Hc. discriminate.
Qed.

Lemma channelRef_marked : forall id,
  forallb is_digit id = true -> marked 60 (channelRef id).
Proof.
  intros id Hd. exists (35%N :: id ++ [62%N]). split; [reflexivity|].
  intros [H|H]; [discriminate|].
  apply in_app_or in H as [H|[H|[]]]; [|discriminate].
  revert H. apply digits_not; [assumption | reflexivity].
Qed.

(** ** A channel reference survives the passes that precede its own *)

(** Replacing a mention pattern (it starts with [<@]) leaves every channel
    reference of the subject in the result. *)
Lemma replace_keeps_ref : forall s r repl id,
  ~ In 60%N (64%N :: r) ->
  forallb is_digit id = true ->
  contains (channelRef id) s ->
  contains (channelRef id) (replace s (60%N :: 64%N :: r) repl).
Proof.
  intros s r repl id Hr Hd [pre [post E]]. unfold replace.
  destruct (find_first _ s) as [[before after]|] eqn:F;
    [|exists pre, post; exact E].
  apply find_first_app in F. rewrite F in E.
  set (G := GetSubstitution _ before after repl).
  assert (Hpat : marked 60 (60%N :: 64%N :: r))
    by (exists (64%N :: r); auto).
  destruct (marked_no_overlap _ _ _ _ _ _ _ Hpat (channelRef_marked _ Hd) E)
    as [[x Hx]|[Hx|[x Hx]]].
  - exists pre, (x ++ G ++ after). rewrite Hx.
    repeat rewrite <- app_assoc. reflexivity.
  - subst before. apply app_inv_head in E. discriminate.
  - subst pre. repeat rewrite <- app_assoc in E.
    apply app_inv_head in E. apply app_inv_head in E. subst after.
    exists (before ++ G ++ x), post.
    repeat rewrite <- app_assoc. reflexivity.
Qed.

Lemma replaceMention_keeps_ref : forall guild content mention id,
  forallb is_digit (u_id mention) = true ->
  forallb is_digit id = true ->
  contains (channelRef id) content ->
  contains (channelRef id) (replaceMention guild content mention).
Proof.
  intros guild content mention id Hu Hd H. unfold replaceMention.
  assert (Hno : forall mid, ~ In 60%N mid ->
                ~ In 60%N (64%N :: mid ++ u_id mention ++ [62%N])).
  { intros mid Hmid [Hin|Hin]; [discriminate|].
    apply in_app_or in Hin as [Hin|Hin]; [auto|].
    apply in_app_or in Hin as [Hin|[Hin|[]]]; [|discriminate].
    revert Hin. apply digits_not; [assumption | reflexivity]. }
  apply (replace_keeps_ref _ ([38%N] ++ u_id mention ++ [62%N]));
    [apply Hno; intros [?|[]]; discriminate | assumption |].
  apply (replace_keeps_ref _ ([33%N] ++ u_id mention ++ [62%N]));
    [apply Hno; intros [?|[]]; discriminate | assumption |].
  apply (replace_keeps_ref _ ([] ++ u_id mention ++ [62%N]));
    [apply Hno; intros [] | assumption | assumption].
Qed.

Lemma mentionsReplaced_keeps_ref : forall message id,
  Forall (fun u => forallb is_digit (u_id u) = true)
         (msg_mentions_users message) ->
  forallb is_digit id = true ->
  contains (channelRef id) (msg_content message) ->
  contains (channelRef id) (mentionsReplaced message).
Proof.
  intros message id Hus Hd. unfold mentionsReplaced.
  generalize (msg_content message) as content.
  induction Hus as [|u us Hu _ IH]; intros content H; simpl.
  - exact H.
  - apply IH. apply replaceMention_keeps_ref; assumption.
Qed.

Lemma contains_app_l : forall t x s, contains t s -> contains t (x ++ s).
Proof.
  intros t x s [pre [post ->]]. exists (x ++ pre), post.
  rewrite <- app_assoc. reflexivity.
Qed.

Lemma contains_cons : forall t c s, contains t s -> contains t (c :: s).
Proof. intros t c s H. apply (contains_app_l t [c] s H). Qed.

(** The newline pass throws nothing. *)
Lemma newline_total : forall sp s n,
  exists s', replace_from match_newline (fun _ => Ok sp) n s = Ok s'.
Proof.
  intros sp. induction s as [|c r IH]; intros n; [simpl; eauto|].
  destruct n as [|k]; [|apply IH]. cbn [replace_from].
  destruct (match_newline (c :: r)) as [[[] m]|]; unfold rbind.
  - destruct (IH (pred m)) as [s' ->]. eauto.
  - destruct (IH 0) as [s' ->]. eauto.
Qed.

Lemma newline_plain : forall sp t post,
  (forall c, In c t -> c <> 10%N /\ c <> 13%N) ->
  exists rest,
    replace_from match_newline (fun _ => Ok sp) 0 (t ++ post)
    = Ok (t ++ rest).
Proof.
  intros sp. induction t as [|c t IH]; intros post Ht.
  - apply newline_total.
  - destruct (Ht c (or_introl eq_refl)) as [H10 H13].
    apply N.eqb_neq in H10, H13. simpl. rewrite H10, H13.
    destruct (IH post) as [rest ->];
      [intros x Hx; apply Ht; right; exact Hx|].
    simpl. eauto.
Qed.

(** A token without line breaks is still there after the newline pass. *)
Lemma newline_keeps : forall sp t post,
  (forall c, In c t -> c <> 10%N /\ c <> 13%N) ->
  t <> [] ->
  forall pre n,
    n <= List.length pre ->
    exists s',
      replace_from match_newline (fun _ => Ok sp) n (pre ++ t ++ post)
      = Ok s' /\ contains t s'.
Proof.
  intros sp t post Ht Hne. induction pre as [|c pre IH]; intros n Hn.
  - assert (n = 0) by (simpl in Hn; lia). subst n.
    destruct (newline_plain sp t post Ht) as [rest E].
    exists (t ++ rest). split; [exact E | exists [], rest; reflexivity].
  - destruct n as [|k].
    + change ((c :: pre) ++ t ++ post) with (c :: (pre ++ t ++ post)).
      cbn [replace_from].
      destruct (match_newline (c :: pre ++ t ++ post)) as [[[] m]|] eqn:M.
      * assert (Hm : pred m <= List.length pre).
        { unfold match_newline in M.
          destruct (N.eqb c 10); [injection M as <-; simpl; lia|].
          destruct (N.eqb c 13); [|discriminate].
          destruct pre as [|d pre'].
          - destruct t as [|x t']; [congruence|].
            destruct (Ht x (or_introl eq_refl)) as [H10 _].
            apply N.eqb_neq in H10. simpl in M. rewrite H10 in M.
            injection M as <-. simpl. lia.
          - simpl in M.
            destruct (N.eqb d 10); injection M as <-; simpl; lia. }
        destruct (IH (pred m) Hm) as [s' [E Hc]]. unfold rbind.
        rewrite E. eexists. split; [reflexivity|].
        apply contains_app_l. exact Hc.
      * destruct (IH 0 (Nat.le_0_l _)) as [s' [E Hc]]. unfold rbind.
        rewrite E. eexists. split; [reflexivity|].
        apply contains_cons. exact Hc.
    + simpl. apply IH. simpl in Hn. lia.
Qed.

(** ** The channel pass *)

Lemma span_stop : forall p a c b,
  forallb p a = true -> p c = false -> span p (a ++ c :: b) = (a, c :: b).
Proof.
  intros p. induction a as [|x a IH]; intros c b Ha Hc; simpl.
  - rewrite Hc. reflexivity.
  - simpl in Ha. apply andb_true_iff in Ha as [Hx Ha].
    rewrite Hx, IH by assumption. reflexivity.
Qed.

Lemma span_app : forall p s a b,
  span p s = (a, b) -> s = a ++ b /\ forallb p a = true.
Proof.
  intros p. induction s as [|c r IH]; intros a b H; simpl in H.
  - injection H as <- <-. auto.
  - destruct (p c) eqn:Hc.
    + destruct (span p r) as [a' b'] eqn:E. injection H as <- <-.
      destruct (IH _ _ eq_refl) as [-> Ha]. simpl. rewrite Hc. auto.
    + injection H as <- <-. auto.
Qed.

(** The expression matches at a well-formed token, capturing its id. *)
Lemma match_channel_ref_here : forall id post,
  id <> [] -> forallb is_digit id = true ->
  match_channel_ref (channelRef id ++ post)
  = Some (id, 3 + List.length id).
Proof.
  intros id post Hne Hd. unfold channelRef.
  change (lit "<#") with [60%N; 35%N]. change (lit ">") with [62%N].
  repeat rewrite <- app_assoc. simpl app. unfold match_channel_ref.
  simpl andb. cbv iota. rewrite span_stop by (assumption || reflexivity).
  destruct id; [congruence | reflexivity].
Qed.

(** A match is a well-formed token at the head of the input. *)
Lemma match_channel_ref_inv : forall s cap n,
  match_channel_ref s = Some (cap, n) ->
  exists rest,
    s = channelRef cap ++ rest /\ forallb is_digit cap = true /\
    n = List.length (channelRef cap).
Proof.
  intros s cap n H. unfold match_channel_ref in H.
  destruct s as [|a [|b r]]; try discriminate.
  destruct (N.eqb a 60) eqn:Ea; [|discriminate].
  destruct (N.eqb b 35) eqn:Eb; [|discriminate]. simpl in H.
  destruct (span is_digit r) as [digits after] eqn:E.
  destruct digits as [|d ds]; [discriminate|].
  destruct after as [|c after']; [discriminate|].
  destruct (N.eqb c 62) eqn:Ec; [|discriminate].
  injection H as <- <-.
  apply N.eqb_eq in Ea, Eb, Ec. subst a b c.
  apply span_app in E as [-> Hd]. exists after'. split; [|split].
  - unfold channelRef. change (lit "<#") with [60%N; 35%N].
    change (lit ">") with [62%N]. repeat rewrite <- app_assoc. reflexivity.
  - exact Hd.
  - unfold channelRef. change (lit "<#") with [60%N; 35%N].
    change (lit ">") with [62%N]. simpl. rewrite length_app. simpl. lia.
Qed.

(** A token whose id is in no channel of the client makes the channel pass
    throw, wherever it stands in the text. *)
Lemma channel_pass_throws : forall discord id post,
  id <> [] -> forallb is_digit id = true ->
  channels_get (d_channels discord) id = None ->
  forall pre n,
    n <= List.length pre ->
    replace_from match_channel_ref (channelReplacer discord) n
                 (pre ++ channelRef id ++ post)
    = Throw TypeError.
Proof.
  intros discord id post Hne Hd Hget.
  induction pre as [|c pre IH]; intros n Hn.
  - assert (n = 0) by (simpl in Hn; lia). subst n. rewrite app_nil_l.
    assert (M := match_channel_ref_here id post Hne Hd).
    destruct (channelRef id ++ post) as [|c r] eqn:E; [discriminate|].
    cbn [replace_from]. rewrite M. unfold channelReplacer.
    rewrite Hget. reflexivity.
  - destruct n as [|k]; [|simpl; apply IH; simpl in Hn; lia].
    change ((c :: pre) ++ channelRef id ++ post)
      with (c :: (pre ++ channelRef id ++ post)).
    cbn [replace_from].
    destruct (match_channel_ref (c :: pre ++ channelRef id ++ post))
      as [[cap m]|] eqn:M.
    + unfold rbind. unfold channelReplacer at 1.
      destruct (channels_get (d_channels discord) cap); [|reflexivity].
      rewrite IH; [reflexivity|].
      apply match_channel_ref_inv in M as [rest [E [Hcap ->]]].
      change (c :: pre ++ channelRef id ++ post)
        with ([] ++ (c :: pre) ++ channelRef id ++ post) in E.
      assert (E' : [] ++ channelRef cap ++ rest
                   = (c :: pre) ++ channelRef id ++ post)
        by (symmetry; exact E).
      destruct (marked_no_overlap _ _ _ _ _ _ _
                  (channelRef_marked _ Hcap) (channelRef_marked _ Hd) E')
        as [[x Hx]|[Hx|[x Hx]]]; try discriminate.
      apply (f_equal (@List.length N)) in Hx.
      rewrite app_nil_l, length_app in Hx. cbn [List.length] in Hx. lia.
    + unfold rbind. rewrite IH by lia. reflexivity.
Qed.

Lemma channelRef_no_linebreak : forall id c,
  forallb is_digit id = true ->
  In c (channelRef id) -> c <> 10%N /\ c <> 13%N.
Proof.
  intros id c Hd Hin. unfold channelRef in Hin.
  change (lit "<#") with [60%N; 35%N] in Hin.
  change (lit ">") with [62%N] in Hin. cbn [app In] in Hin.
  destruct Hin as [<-|[<-|Hin]]; try (split; discriminate).
  apply in_app_or in Hin as [Hin|[<-|[]]]; [|split; discriminate].
  rewrite forallb_forall in Hd. specialize (Hd _ Hin).
  split; intros ->; discriminate.
Qed.

(** The transform throws as soon as the body holds one channel reference
    that the client cannot resolve. *)
Lemma parseText_unresolved : forall discord message id,
  Forall (fun u => forallb is_digit (u_id u) = true)
         (msg_mentions_users message) ->
  id <> [] -> forallb is_digit id = true ->
  contains (channelRef id) (msg_content message) ->
  channels_get (d_channels discord) id = None ->
  parseText discord message = Throw TypeError.
Proof.
  intros discord message id Hus Hne Hd Hin Hget. unfold parseText.
  apply (mentionsReplaced_keeps_ref _ _ Hus Hd) in Hin.
  destruct Hin as [pre [post E]]. rewrite E. unfold replace_all.
  destruct (newline_keeps (lit " ") (channelRef id) post
              (fun c => channelRef_no_linebreak id c Hd)
              ltac:(discriminate) pre 0 (Nat.le_0_l _))
    as [t1 [E1 [pre1 [post1 ->]]]].
  rewrite E1. unfold rbind at 1.
  rewrite (channel_pass_throws discord id post1 Hne Hd Hget pre1 0
             (Nat.le_0_l _)).
  reflexivity.
Qed.

(** C4. When the body of a Discord message holds a channel reference
    [<#id>] whose id is the id of no channel of the client (mention ids
    being digit strings, as Discord ids are), [parseText] throws; [sendToIRC]
    then makes no call at all, so no partly substituted line is sent, and
    the error leaves [sendToIRC] whenever the transform is reached; the log
    of calls being untouched, every other message is relayed as if the
    failing one had not come. *)
Theorem unresolved_channel_reference_drops_message :
  forall bot discord message id,
    Forall (fun u => forallb is_digit (u_id u) = true)
           (msg_mentions_users message) ->
    id <> [] -> forallb is_digit id = true ->
    contains (channelRef id) (msg_content message) ->
    channels_get (d_channels discord) id = None ->
    parseText discord message = Throw TypeError /\
    (forall log, fst (sendToIRC bot discord message log) = log) /\
    (forall ircChannel log,
        u_id (msg_author message) <> u_id (d_user discord) ->
        Obj.get (channelMapping bot) (lit "#" ++ msg_channel_name message)
          = Some ircChannel ->
        truthy ircChannel = true ->
        sendToIRC bot discord message log = (log, Throw TypeError)) /\
    (forall message' log,
        sendToIRC bot discord message'
                  (fst (sendToIRC bot discord message log))
        = sendToIRC bot discord message' log).
Proof.
  intros bot discord message id Hus Hne Hd Hin Hget.
  assert (Hthrow := parseText_unresolved discord message id
                      Hus Hne Hd Hin Hget).
  assert (Hlog : forall log, fst (sendToIRC bot discord message log) = log).
  { intros log. unfold sendToIRC.
    destruct (jseqb _ _); [reflexivity|].
    destruct (Obj.get _ _) as [ircChannel|]; [|reflexivity].
    destruct (truthy ircChannel); [|reflexivity].
    unfold ebind, lift. rewrite Hthrow. reflexivity. }
  split; [exact Hthrow|]. split; [exact Hlog|]. split.
  - intros ircChannel log Hauthor Hmap Htruthy. unfold sendToIRC.
    apply jseqb_neq in Hauthor. rewrite Hauthor, Hmap, Htruthy.
    unfold ebind, lift. rewrite Hthrow. reflexivity.
  - intros message' log. rewrite Hlog. reflexivity.
Qed.

End ToIRC.

(** ** IRC to Discord: the mention pass *)

Section ToDiscord.
Context {host : Host}.

Lemma last_boundary_spec : forall run k j,
  last_boundary run k = Some j ->
  1 <= j <= k /\ boundary_after run j = true /\
  (forall i, j < i <= k -> boundary_after run i = false).
Proof.
  intros run. induction k as [|k IH]; intros j H; simpl in H; [discriminate|].
  destruct (boundary_after run (S k)) eqn:B.
  - injection H as <-. split; [lia|]. split; [exact B|]. intros i Hi. lia.
  - destruct (IH _ H) as [Hj [Hb Hmax]]. split; [lia|]. split; [exact Hb|].
    intros i Hi. destruct (Nat.eq_dec i (S k)) as [->|Hne]; [exact B|].
    apply Hmax. lia.
Qed.

(** What the expression matches at an [@]: the units after it up to the
    last word boundary inside the run of non-whitespace units. *)
Lemma match_mention_inv : forall r token n,
  match_mention (64%N :: r) = Some (token, n) ->
  let run := fst (span not_space r) in
  exists k,
    token = firstn k run /\ 1 <= k <= List.length run /\ n = S k /\
    boundary_after run k = true /\
    (forall j, k < j <= List.length run -> boundary_after run j = false).
Proof.
  intros r token n H run. unfold match_mention in H.
  rewrite N.eqb_refl in H. fold run in H.
  destruct (last_boundary run (List.length run)) as [k|] eqn:L;
    [|discriminate].
  injection H as <- <-. exists k.
  destruct (last_boundary_spec _ _ _ L) as [Hk [Hb Hmax]]. auto.
Qed.

Lemma match_mention_other : forall c r,
  c <> 64%N -> match_mention (c :: r) = None.
Proof.
  intros c r H. unfold match_mention. apply N.eqb_neq in H. rewrite H.
  reflexivity.
Qed.

(** Text without [@] in front of the rest is copied. *)
Lemma withMentions_prefix : forall discord guild pre s,
  ~ In 64%N pre ->
  withMentions discord guild (pre ++ s) =
  (rest <- withMentions discord guild s ;; Ok (pre ++ rest))%js.
Proof.
  intros discord guild. induction pre as [|c pre IH]; intros s H.
  - simpl. destruct (withMentions discord guild s); reflexivity.
  - simpl app. unfold withMentions in *.
    rewrite replace_all_skip
      by (apply match_mention_other; intros ->; apply H; left; reflexivity).
    rewrite IH by (intros Hin; apply H; right; exact Hin).
    destruct (replace_all _ _ s); reflexivity.
Qed.

(** Whitespace is no word unit. *)
Lemma space_is_no_word : forall c, is_space c = true -> is_word c = false.
Proof.
  intros c H. destruct (is_word c) eqn:W; [|reflexivity]. exfalso.
  unfold is_space, is_word, is_digit, between in *.
  repeat rewrite ?orb_true_iff, ?andb_true_iff, ?N.leb_le, ?N.eqb_eq in *.
  lia.
Qed.

Lemma span_rest : forall p s a b,
  span p s = (a, b) ->
  match b with
  | [] => True
  | c :: _ => p c = false
  end.
Proof.
  intros p. induction s as [|c r IH]; intros a b H; simpl in H.
  - injection H as <- <-. exact I.
  - destruct (p c) eqn:Hc.
    + destruct (span p r) as [a' b'] eqn:E. injection H as <- <-.
      apply (IH _ _ eq_refl).
    + injection H as <- <-. exact Hc.
Qed.

Lemma last_boundary_none : forall run k,
  last_boundary run k = None ->
  forall j, 1 <= j <= k -> boundary_after run j = false.
Proof.
  intros run. induction k as [|k IH]; intros H j Hj; [lia|].
  simpl in H. destruct (boundary_after run (S k)) eqn:B; [discriminate|].
  destruct (Nat.eq_dec j (S k)) as [->|Hne]; [exact B|].
  apply IH; [exact H | lia].
Qed.

(** The worded token and the expression agree: inside the run of
    non-whitespace units after the [@], the ends of a token are the word
    boundaries that the backtracking looks for. *)
Lemma token_end_app : forall run rest k,
  forallb not_space run = true ->
  match rest with
  | [] => True
  | c :: _ => is_space c = true
  end ->
  token_end (run ++ rest) k <->
  1 <= k <= List.length run /\ boundary_after run k = true.
Proof.
  intros run rest k Hrun Hrest.
  assert (Hlast : forall j,
             j < List.length run ->
             word_unit (nth_error (run ++ rest) j) = word_at run j).
  { intros j Hj. unfold word_at. rewrite nth_error_app1 by exact Hj.
    reflexivity. }
  assert (Hnext : word_unit (nth_error (run ++ rest) (List.length run))
                  = word_at run (List.length run)).
  { unfold word_at. rewrite nth_error_app2 by lia. rewrite Nat.sub_diag.
    replace (nth_error run (List.length run)) with (@None N)
      by (symmetry; apply nth_error_None; lia).
    destruct rest as [|c rest]; [reflexivity|]. simpl.
    apply space_is_no_word. exact Hrest. }
  assert (Hb : 1 <= k <= List.length run ->
               (word_unit (nth_error (run ++ rest) (k - 1))
                <> word_unit (nth_error (run ++ rest) k)
                <-> boundary_after run k = true)).
  { intros Hk. unfold boundary_after.
    replace (pred k) with (k - 1) by lia.
    rewrite (Hlast (k - 1)) by lia.
    assert (E : word_unit (nth_error (run ++ rest) k) = word_at run k).
    { destruct (Nat.eq_dec k (List.length run)) as [->|Hne];
        [exact Hnext | apply Hlast; lia]. }
    rewrite E.
    destruct (word_at run (k - 1)), (word_at run k); simpl;
      split; congruence. }
  split.
  - intros [Hk [Hns Hw]].
    assert (Hle : k <= List.length run).
    { destruct (le_lt_dec k (List.length run)) as [Hle|Hgt]; [exact Hle|].
      exfalso. destruct rest as [|c rest].
      - rewrite app_nil_r in Hk. lia.
      - assert (Hin : In c (firstn k (run ++ c :: rest))).
        { rewrite firstn_app. apply in_or_app. right.
          destruct (k - List.length run) as [|d] eqn:D; [lia|].
          left. reflexivity. }
        apply Hns in Hin. congruence. }
    split; [lia|]. apply Hb; [lia | exact Hw].
  - intros [Hk Hw]. split; [|split].
    + rewrite length_app. lia.
    + intros c Hin. rewrite firstn_app in Hin.
      replace (k - List.length run) with 0 in Hin by lia.
      simpl in Hin. rewrite app_nil_r in Hin.
      assert (Hin' : In c run).
      { rewrite <- (firstn_skipn k run). apply in_or_app. left. exact Hin. }
      rewrite forallb_forall in Hrun. apply Hrun in Hin'.
      unfold not_space in Hin'. apply negb_true_iff in Hin'. exact Hin'.
    + apply Hb; assumption.
Qed.

(** What the expression matches at an [@] is the worded token, and it
    matches whenever there is one. *)
Lemma match_mention_token : forall r,
  match match_mention (64%N :: r) with
  | Some (token, n) =>
      exists k, token = firstn k r /\ n = S k /\ token_length r k
  | None => forall k, ~ token_end r k
  end.
Proof.
  intros r. unfold match_mention. rewrite N.eqb_refl.
  destruct (span not_space r) as [run rest] eqn:E. simpl fst.
  pose proof (span_rest _ _ _ _ E) as Hrest.
  apply span_app in E as [-> Hrun].
  assert (Hrest' : match rest with
                   | [] => True
                   | c :: _ => is_space c = true
                   end).
  { destruct rest as [|c rest]; [exact I|].
    unfold not_space in Hrest. apply negb_false_iff in Hrest. exact Hrest. }
  destruct (last_boundary run (List.length run)) as [k|] eqn:L.
  - destruct (last_boundary_spec _ _ _ L) as [Hk [Hb Hmax]].
    exists k. split; [|split; [reflexivity|]].
    + rewrite firstn_app. replace (k - List.length run) with 0 by lia.
      simpl. rewrite app_nil_r. reflexivity.
    + split.
      * apply (token_end_app run rest k Hrun Hrest'). auto.
      * intros j Hj.
        apply (token_end_app run rest j Hrun Hrest') in Hj as [Hj Hbj].
        destruct (le_lt_dec j k) as [Hle|Hgt]; [exact Hle|].
        rewrite Hmax in Hbj by lia. discriminate.
  - intros k Hk.
    apply (token_end_app run rest k Hrun Hrest') in Hk as [Hk Hb].
    rewrite (last_boundary_none _ _ L k Hk) in Hb. discriminate.
Qed.

(** A nickname equal to the token is found by the lookup by nickname: after
    that lookup has failed, no member has it. *)
Lemma nickname_not_token : forall guild token id member,
  find_member_by_nickname guild token = None ->
  find_member_by_id guild id = Some member ->
  m_nickname member <> Some token.
Proof.
  intros guild token id member Hn Hm E.
  unfold find_member_by_nickname in Hn. unfold find_member_by_id in Hm.
  apply find_some in Hm as [Hin _].
  pose proof (find_none _ _ Hn _ Hin) as F. cbv beta in F.
  rewrite E in F. simpl in F. rewrite jseqb_refl in F. discriminate.
Qed.

(** C2, as amended. The body of a relayed IRC message goes through one
    left-to-right pass. Text without [@] is copied. At an [@], the token is
    the longest non-empty prefix of the run of non-whitespace units after it
    that ends at a word boundary (not the whole run: trailing punctuation
    stays outside); where the run has no such prefix the [@] is copied. The
    token is resolved as a guild nickname first, and the member's mention
    form replaces [@token]; otherwise as a username, and for a user who is a
    member of the guild the user's mention form is substituted only when the
    member's nickname is unset or empty (it is never equal to the token
    here, the lookup by nickname having failed); when the member has a
    nickname, or no user has that username, [@token] is left as it is. The
    pass resumes after the token. Every [@] is in one of the two cases: it
    has a token, or no prefix of its run ends at a word boundary. *)
Theorem mention_tokens_are_resolved :
  forall (bot : Bot) (discord : Discord) (guild : Guild),
    (forall author channel text name discordChannel log,
        Obj.get (invertedMapping bot) (toLowerCase channel) = Some name ->
        truthy name = true ->
        find_channel_by_name
          (filter (fun c => jseqb (ch_type c) (lit "text")) (d_channels discord))
          (skipn 1 name) = Some discordChannel ->
        sendToDiscord bot discord author channel text log =
        match withMentions discord (ch_guild discordChannel) text with
        | Ok mentions =>
            (log ++ [SendMessage discordChannel
                       (lit "**<" ++ author ++ lit ">** " ++ mentions)],
             Ok tt)
        | Throw e => (log, Throw e)
        end) /\
    (forall text, ~ In 64%N text -> withMentions discord guild text = Ok text) /\
    (forall pre r,
        ~ In 64%N pre ->
        (forall k, ~ token_end r k) ->
        withMentions discord guild (pre ++ 64%N :: r) =
        (rest <- withMentions discord guild r ;; Ok (pre ++ 64%N :: rest))%js) /\
    (forall pre r k,
        ~ In 64%N pre ->
        token_length r k ->
        withMentions discord guild (pre ++ 64%N :: r) =
        (out <- mentionReplacer discord guild (firstn k r) ;;
         rest <- withMentions discord guild (skipn k r) ;;
         Ok (pre ++ out ++ rest))%js) /\
    (forall r, (forall k, ~ token_end r k) \/ exists k, token_length r k) /\
    (forall token nickUser,
        find_member_by_nickname guild token = Some nickUser ->
        mentionReplacer discord guild token = Ok (member_toString nickUser)) /\
    (forall token user member,
        find_member_by_nickname guild token = None ->
        find_user_by_username (d_users discord) token = Some user ->
        find_member_by_id guild (u_id user) = Some member ->
        m_nickname member <> Some token /\
        (m_nickname member = None \/ m_nickname member = Some [] ->
         mentionReplacer discord guild token = Ok (user_toString user)) /\
        (forall nick,
            m_nickname member = Some nick -> nick <> [] ->
            mentionReplacer discord guild token = Ok (lit "@" ++ token))) /\
    (forall token,
        find_member_by_nickname guild token = None ->
        find_user_by_username (d_users discord) token = None ->
        mentionReplacer discord guild token = Ok (lit "@" ++ token)).
Proof.
  intros bot discord guild.
  split; [|split; [|split; [|split; [|split; [|split; [|split]]]]]].
  - intros author channel text name discordChannel log Hget Ht Hfind.
    unfold sendToDiscord.
    rewrite (ObjFacts.lookup_own _ _ _ Hget), Ht, Hfind. unfold ebind, lift.
    destruct (withMentions discord (ch_guild discordChannel) text);
      reflexivity.
  - intros text H. rewrite <- (app_nil_r text) at 1.
    rewrite withMentions_prefix by assumption. simpl.
    rewrite app_nil_r. reflexivity.
  - intros pre r H Hnone. rewrite withMentions_prefix by assumption.
    pose proof (match_mention_token r) as T.
    destruct (match_mention (64%N :: r)) as [[token n]|] eqn:M.
    + destruct T as [k [_ [_ [Hk _]]]]. destruct (Hnone _ Hk).
    + unfold withMentions. rewrite replace_all_skip by assumption.
      destruct (replace_all _ _ r); reflexivity.
  - intros pre r k H [Hk Hmax].
    pose proof (match_mention_token r) as T.
    destruct (match_mention (64%N :: r)) as [[token n]|] eqn:M;
      [|destruct (T _ Hk)].
    destruct T as [k' [-> [-> [Hk' Hmax']]]].
    assert (E : k' = k) by (apply Nat.le_antisymm; auto).
    subst k'.
    rewrite withMentions_prefix by assumption. unfold withMentions.
    rewrite (replace_all_match _ _ _ _ _ _ _ M). simpl pred.
    destruct (mentionReplacer discord guild _); [|reflexivity]. simpl.
    destruct (replace_all _ _ (skipn k r)); reflexivity.
  - intros r. pose proof (match_mention_token r) as T.
    destruct (match_mention (64%N :: r)) as [[token n]|].
    + right. destruct T as [k [_ [_ Hk]]]. exists k. exact Hk.
    + left. exact T.
  - intros token nickUser H. unfold mentionReplacer. rewrite H. reflexivity.
  - intros token user member H H0 H1.
    pose proof (nickname_not_token _ _ _ _ H H1) as Hdiff.
    split; [exact Hdiff|]. split.
    + intros Hnick. unfold mentionReplacer. rewrite H, H0, H1.
      destruct Hnick as [E|E]; rewrite E; reflexivity.
    + intros nick Hn Hne. unfold mentionReplacer.
      rewrite H, H0, H1, Hn. simpl.
      apply truthy_nonempty in Hne. rewrite Hne.
      assert (D : nick <> token) by congruence.
      apply jseqb_neq in D. rewrite D. reflexivity.
  - intros token Hn Hu. unfold mentionReplacer. rewrite Hn, Hu. reflexivity.
Qed.

End ToDiscord.

(** * Concrete runs *)

Module Runs.

Lemma not_the_bot : lit "not bot id" <> u_id (d_user Fixture.discord).
Proof. apply jseqb_neq. reflexivity. Qed.

(** The construction of the example succeeds. *)
Lemma bot_constructed : @Bot_new Node.host Fixture.options = Ok Fixture.bot.
Proof. reflexivity. Qed.



(** X22: a Discord channel and an IRC channel that are not bridged. *)
Lemma unmapped_source_is_dropped_witness :
  @sendToIRC Node.host Fixture.bot Fixture.discord
     (Fixture.message Fixture.other "wrongdiscord" "hello" [] None) []
  = ([], Ok tt) /\
  @sendToDiscord Node.host Fixture.bot Fixture.discord
     (lit "user") (lit "#otherirc") (lit "message") []
  = ([], Ok tt).
Proof.
  destruct (@unmapped_source_is_dropped Node.host Fixture.bot
              Fixture.discord) as [Hd Hi].
  split; [apply Hd; reflexivity|].
  exact (proj1 (Hi (lit "user") (lit "#otherirc") (lit "message") []
                   eq_refl eq_refl)).
Defined.

(** C5 fails on the code: the IRC target [constructor] is no key of the
    inverted mapping, yet the lookup answers the function that every object
    inherits under that name, the guard of [sendToDiscord] lets it pass, and
    [discordChannelName.slice(1)] throws a TypeError. Nothing is sent. *)
Lemma unmapped_target_raises_an_error :
  ~ In (lit "constructor") (Obj.keys (invertedMapping Fixture.bot)) /\
  @sendToDiscord Node.host Fixture.bot Fixture.discord
     (lit "someone") (lit "constructor") (lit "hello") []
  = ([], Throw TypeError).
Proof.
  split; [|reflexivity].
  apply ObjFacts.get_none_keys. reflexivity.
Qed.

(** C6: a message of the bot's own user in the bridged channel. *)
Lemma own_message_never_reaches_irc_witness :
  @sendToIRC Node.host Fixture.bot Fixture.discord
     (Fixture.message (Fixture.author "testid" "bot") "discord" "hello"
        [] None) []
  = ([], Ok tt).
Proof.
  apply (@own_message_never_reaches_irc Node.host). reflexivity.
Defined.

(** X23: an invite to the bridged channel, one to an inherited name and
    one to another channel. *)
Lemma invite_joins_mapped_or_inherited_witness :
  onInvite Fixture.bot (lit "#irc") (lit "someone") []
  = ([Join (lit "#irc")], Ok tt) /\
  onInvite Fixture.bot (lit "toString") (lit "someone") []
  = ([Join (lit "toString")], Ok tt) /\
  onInvite Fixture.bot (lit "#elsewhere") (lit "someone") []
  = ([], Ok tt).
Proof.
  split; [|split].
  - apply (proj1 (@invite_joins_mapped_or_inherited Node.host Fixture.options
                    Fixture.bot (lit "#irc") (lit "someone") []
                    bot_constructed)).
    left. left. reflexivity.
  - apply (proj1 (@invite_joins_mapped_or_inherited Node.host Fixture.options
                    Fixture.bot (lit "toString") (lit "someone") []
                    bot_constructed)).
    right. reflexivity.
  - apply (proj2 (@invite_joins_mapped_or_inherited Node.host Fixture.options
                    Fixture.bot (lit "#elsewhere") (lit "someone") []
                    bot_constructed)).
    + apply ObjFacts.get_none_keys. reflexivity.
    + reflexivity.
Defined.

(** C10 fails on the code: [constructor] is no key of the inverted mapping,
    yet the lookup of the [invite] listener answers the function inherited
    under that name, which is truthy, and the bot joins. *)
Lemma invite_to_unmapped_name_joins :
  ~ In (lit "constructor") (Obj.keys (invertedMapping Fixture.bot)) /\
  onInvite Fixture.bot (lit "constructor") (lit "someone") []
  = ([Join (lit "constructor")], Ok tt).
Proof.
  split; [|reflexivity].
  apply ObjFacts.get_none_keys. reflexivity.
Qed.

(** C9: the name ["testuser"], 116 + 8 = 124 and 124 mod 12 = 4. *)
Lemma nick_color_is_function_of_name_witness :
  List.length NICK_COLORS = 12 /\
  exists color,
    nth_error NICK_COLORS 4 = Some color /\
    In color NICK_COLORS /\
    colorFor (lit "testuser") = Some color /\
    (forall bot, ircNickColor bot = true ->
                 @displayUsernameOf Node.host bot (lit "testuser")
                 = Node.wrap (Some color) (lit "testuser")).
Proof.
  apply (@nick_color_is_function_of_name Node.host (lit "testuser")).
  apply truthy_nonempty. reflexivity.
Defined.

(** C7: the command ["!test command"] sent by [test]. *)
Lemma command_message_sends_prelude_and_body_witness :
  @sendToIRC Node.host Fixture.bot Fixture.discord
     (Fixture.message Fixture.tester "discord" "!test command" [] None) []
  = ([Say (lit "#irc") (lit "Command sent from Discord by test:");
      Say (lit "#irc") (lit "!test command")],
     Ok tt).
Proof.
  destruct (@command_message_sends_prelude_and_body Node.host
              Fixture.options Fixture.bot Fixture.discord
              (Fixture.message Fixture.tester "discord" "!test command" [] None)
              (lit "#irc") (lit "!test command") []
              bot_constructed
              not_the_bot eq_refl eq_refl)
    as [_ [_ Hsend]].
  exact (Hsend eq_refl).
Defined.

(** C8: a body with one attachment, and one attachment without body. *)
Lemma body_and_attachment_lines_witness :
  @sendToIRC Node.host Fixture.bot Fixture.discord
     (Fixture.message Fixture.other "discord" "Look!" [] (Some [Fixture.image])) []
  = ([Say (lit "#irc")
          (lit "<" ++ Node.wrap (Some (lit "light_red")) (lit "otherauthor")
             ++ lit "> Look!");
      Say (lit "#irc")
          (lit "<" ++ Node.wrap (Some (lit "light_red")) (lit "otherauthor")
             ++ lit "> https://image/url.jpg")],
     Ok tt) /\
  @sendToIRC Node.host Fixture.bot Fixture.discord
     (Fixture.message Fixture.other "discord" "" [] (Some [Fixture.image])) []
  = ([Say (lit "#irc")
          (lit "<" ++ Node.wrap (Some (lit "light_red")) (lit "otherauthor")
             ++ lit "> https://image/url.jpg")],
     Ok tt).
Proof.
  split.
  - pose proof (@body_and_attachment_lines Node.host
                  Fixture.options Fixture.bot Fixture.discord
                  (Fixture.message Fixture.other "discord" "Look!" []
                     (Some [Fixture.image]))
                  (lit "#irc") (lit "Look!") []
                  bot_constructed
                  not_the_bot eq_refl eq_refl eq_refl)
      as H.
    cbv zeta in H. destruct H as [Hbody _].
    apply Hbody. apply truthy_nonempty. reflexivity.
  - pose proof (@body_and_attachment_lines Node.host
                  Fixture.options Fixture.bot Fixture.discord
                  (Fixture.message Fixture.other "discord" "" [] (Some [Fixture.image]))
                  (lit "#irc") [] []
                  bot_constructed
                  not_the_bot eq_refl eq_refl eq_refl)
      as H.
    cbv zeta in H. destruct H as [_ [Hempty _]].
    apply Hempty. reflexivity.
Defined.

(** C4: the body ["see <#999>"] where no channel has the id 999. *)
Lemma unresolved_channel_reference_drops_message_witness :
  parseText Fixture.discord
    (Fixture.message Fixture.other "discord" "see <#999>" [] None)
  = Throw TypeError /\
  @sendToIRC Node.host Fixture.bot Fixture.discord
     (Fixture.message Fixture.other "discord" "see <#999>" [] None) []
  = ([], Throw TypeError).
Proof.
  destruct (@unresolved_channel_reference_drops_message Node.host
              Fixture.bot Fixture.discord
              (Fixture.message Fixture.other "discord" "see <#999>" [] None)
              (lit "999") (Forall_nil _)
              (proj1 (truthy_nonempty (lit "999")) eq_refl) eq_refl
              (ex_intro _ (lit "see ") (ex_intro _ [] eq_refl)) eq_refl)
    as [Hparse [_ [Hsend _]]].
  split; [exact Hparse|].
  apply (Hsend (lit "#irc")); [apply jseqb_neq|..]; reflexivity.
Defined.

(** C3 fails on the code: the second mention of the same user is left as
    the raw token, because [String.prototype.replace] with a string pattern
    replaces the first occurrence only. *)
Lemma repeated_mention_is_replaced_once :
  parseText Fixture.discord
    (Fixture.message Fixture.other "discord" "<@123> <@123>" [Fixture.testuser] None)
  = Ok (lit "@testuser <@123>").
Proof. reflexivity. Qed.

Ltac no_at :=
  let H := fresh in
  intro H; vm_compute in H;
  repeat (destruct H as [H|H]; [discriminate H|]); exact H.

(** C2: a relayed line, text without [@], an [@] without token, a token
    followed by punctuation, and the four ways a token resolves. *)
Lemma mention_tokens_are_resolved_witness :
  @sendToDiscord Node.host Fixture.bot Fixture.discord
     (lit "ircuser") (lit "#IRC") (lit "Hello, @testuser!") []
  = ([SendMessage Fixture.textChannel (lit "**<ircuser>** Hello, <@123>!")],
     Ok tt) /\
  @withMentions Node.host Fixture.discord Fixture.guild (lit "see you at 5pm")
  = Ok (lit "see you at 5pm") /\
  @withMentions Node.host Fixture.discord Fixture.guild (lit "wow @!!! ok")
  = Ok (lit "wow @!!! ok") /\
  @withMentions Node.host Fixture.discord Fixture.guild
     (lit "Hello, @testuser!")
  = Ok (lit "Hello, <@123>!") /\
  @mentionReplacer Node.host Fixture.discord Fixture.guild (lit "bobby")
  = Ok (lit "<@!124>") /\
  @mentionReplacer Node.host Fixture.discord Fixture.guild (lit "testuser")
  = Ok (lit "<@123>") /\
  @mentionReplacer Node.host Fixture.discord Fixture.guild (lit "bob")
  = Ok (lit "@bob") /\
  @mentionReplacer Node.host Fixture.discord Fixture.guild (lit "5pm")
  = Ok (lit "@5pm").
Proof.
  destruct (@mention_tokens_are_resolved Node.host Fixture.bot
              Fixture.discord Fixture.guild)
    as [Hsend [Hplain [Hnone [Htoken [_ [Hnick [Huser Hunknown]]]]]]].
  split; [|split; [|split; [|split; [|split; [|split; [|split]]]]]].
  - exact (Hsend (lit "ircuser") (lit "#IRC") (lit "Hello, @testuser!")
             (lit "#discord") Fixture.textChannel [] eq_refl eq_refl eq_refl).
  - apply Hplain. no_at.
  - refine (Hnone (lit "wow ") (lit "!!! ok") _ _); [no_at|].
    intros k [[Hk _] [Hns Hw]].
    destruct k as [|[|[|[|k]]]];
      [lia | apply Hw; reflexivity | apply Hw; reflexivity
       | apply Hw; reflexivity |].
    assert (S : is_space 32 = false).
    { apply Hns. simpl. right. right. right. left. reflexivity. }
    discriminate S.
  - refine (Htoken (lit "Hello, ") (lit "testuser!") 8 _ _); [no_at|].
    split; [split; [|split]|].
    + simpl. lia.
    + intros c Hin. vm_compute in Hin.
      repeat (destruct Hin as [Hin|Hin]; [subst c; reflexivity|]).
      destruct Hin.
    + vm_compute. discriminate.
    + intros j [[_ Hj] [_ Hw]]. change (j <= 9) in Hj.
      destruct (Nat.eq_dec j 9) as [E|E]; [|lia].
      subst j. exfalso. apply Hw. reflexivity.
  - exact (Hnick (lit "bobby")
             {| m_user := Fixture.bob; m_nickname := Some (lit "bobby") |}
             eq_refl).
  - exact (proj1 (proj2 (Huser (lit "testuser") Fixture.testuser
                           {| m_user := Fixture.testuser;
                              m_nickname := None |}
                           eq_refl eq_refl eq_refl)) (or_introl eq_refl)).
  - refine (proj2 (proj2 (Huser (lit "bob") Fixture.bob
                            {| m_user := Fixture.bob;
                               m_nickname := Some (lit "bobby") |}
                            eq_refl eq_refl eq_refl)) (lit "bobby") eq_refl _).
    apply truthy_nonempty. reflexivity.
  - exact (Hunknown (lit "5pm") eq_refl eq_refl).
Defined.

(** C2 as stated fails: with the token read as the whole run of
    non-whitespace units, ["testuser!"] names nobody and the line would be
    left unchanged, where the code mentions the user and keeps the [!]. *)
Lemma mention_token_is_not_the_whole_run :
  @withMentions Node.host Fixture.discord Fixture.guild
     (lit "Hello, @testuser!")
  = Ok (lit "Hello, <@123>!") /\
  @withMentions_spec Node.host Fixture.discord Fixture.guild
     (lit "Hello, @testuser!")
  = Ok (lit "Hello, @testuser!") /\
  @withMentions Node.host Fixture.discord Fixture.guild
     (lit "Hello, @testuser!")
  <> @withMentions_spec Node.host Fixture.discord Fixture.guild
       (lit "Hello, @testuser!").
Proof.
  split; [reflexivity|]. split; [reflexivity|].
  vm_compute. discriminate.
Qed.

End Runs.

(** * The repository's tests, run on the embedding

    The cases of [test/bot.test.js] that do not depend on its stubs'
    shortcuts, with the expected values of the tests. *)

Module Tests.

Lemma sends_formatted_messages_to_discord :
  @sendToDiscord Node.host Fixture.bot Fixture.discord
     (lit "testuser") (lit "#irc") (lit "test message") []
  = ([SendMessage Fixture.textChannel (lit "**<testuser>** test message")],
     Ok tt).
Proof. reflexivity. Qed.

Lemma lowercases_channel_names_before_sending_to_discord :
  @sendToDiscord Node.host Fixture.bot Fixture.discord
     (lit "testuser") (lit "#IRC") (lit "test message") []
  = ([SendMessage Fixture.textChannel (lit "**<testuser>** test message")],
     Ok tt).
Proof. reflexivity. Qed.

Lemma does_not_color_when_disabled :
  @sendToIRC Node.host Fixture.plainBot Fixture.discord
     (Fixture.message Fixture.other "discord" "testmessage" [] None) []
  = ([Say (lit "#irc") (lit "<otherauthor> testmessage")], Ok tt).
Proof. reflexivity. Qed.

Lemma sends_correct_messages_to_irc :
  @sendToIRC Node.host Fixture.bot Fixture.discord
     (Fixture.message Fixture.other "discord" "testmessage" [] None) []
  = ([Say (lit "#irc")
          (lit "<" ++ Fixture.colored "04" "otherauthor" ++ lit "> testmessage")],
     Ok tt).
Proof. reflexivity. Qed.

Lemma sends_text_and_attachment_url :
  @sendToIRC Node.host Fixture.bot Fixture.discord
     (Fixture.message Fixture.other "discord"
        "Look at this cute cat picture!" [] (Some [Fixture.image])) []
  = ([Say (lit "#irc")
          (lit "<" ++ Fixture.colored "04" "otherauthor"
             ++ lit "> Look at this cute cat picture!");
      Say (lit "#irc")
          (lit "<" ++ Fixture.colored "04" "otherauthor"
             ++ lit "> https://image/url.jpg")],
     Ok tt).
Proof. reflexivity. Qed.

Lemma parses_channel_references :
  @sendToIRC Node.host Fixture.bot Fixture.discord
     (Fixture.message Fixture.tester "discord" "<#1234>" [] None) []
  = ([Say (lit "#irc") (lit "<" ++ Fixture.colored "12" "test" ++ lit "> #discord")],
     Ok tt).
Proof. reflexivity. Qed.

Lemma converts_user_mentions :
  parseText Fixture.discord
    (Fixture.message Fixture.other "discord" "<@123> hi"
       [Fixture.testuser] None)
  = Ok (lit "@testuser hi") /\
  parseText Fixture.discord
    (Fixture.message Fixture.other "discord" "<@!123> hi"
       [Fixture.testuser] None)
  = Ok (lit "@testuser hi").
Proof. split; reflexivity. Qed.

Lemma converts_emotes :
  parseText Fixture.discord
    (Fixture.message Fixture.other "discord"
       "<:SCGWat:230473833046343680>" [] None)
  = Ok (lit ":SCGWat:").
Proof. reflexivity. Qed.

Lemma converts_newlines :
  parseText Fixture.discord
    {| msg_content :=
         lit "hi" ++ [10%N] ++ lit "hi" ++ [13%N; 10%N] ++ lit "hi" ++ [13%N];
       msg_mentions_users := [];
       msg_channel_name := lit "discord";
       msg_author := Fixture.other;
       msg_guild := Fixture.guild;
       msg_attachments := None |}
  = Ok (lit "hi hi hi ").
Proof. reflexivity. Qed.

Lemma converts_multiple_mentions_from_irc :
  @sendToDiscord Node.host Fixture.bot Fixture.discord
     (lit "ircuser") (lit "#irc")
     (lit "Hello, @testuser and @bobby, was our meeting scheduled @5pm?") []
  = ([SendMessage Fixture.textChannel
        (lit "**<ircuser>** Hello, <@123> and <@!124>, was our meeting scheduled @5pm?")],
     Ok tt).
Proof. reflexivity. Qed.

Lemma keeps_username_when_nickname_differs :
  @sendToDiscord Node.host Fixture.bot Fixture.discord
     (lit "ircuser") (lit "#irc") (lit "Hello, @bob!") []
  = ([SendMessage Fixture.textChannel (lit "**<ircuser>** Hello, @bob!")],
     Ok tt).
Proof. reflexivity. Qed.

Lemma uses_nickname_when_available :
  @sendToIRC Node.host Fixture.plainBot Fixture.discord
     {| msg_content := lit "testmessage";
        msg_mentions_users := [];
        msg_channel_name := lit "discord";
        msg_author := Fixture.other;
        msg_guild := Fixture.nickGuild;
        msg_attachments := None |} []
  = ([Say (lit "#irc") (lit "<discord-nickname> testmessage")], Ok tt).
Proof. reflexivity. Qed.

End Tests.

(** * Further properties of the class *)

(** ** Construction *)

Section Construction.
Context {host : Host}.

(** X1. The constructor reports the first missing required field, in the
    order server, nickname, channelMapping, discordToken (an empty string
    counts as missing), and a constructed bot had all four. *)
Theorem constructor_reports_first_missing_field :
  forall options,
    (truthy_opt (o_server options) = false ->
     Bot_new options
     = Throw (ConfigurationError (lit "Missing configuration field server"))) /\
    (truthy_opt (o_server options) = true ->
     truthy_opt (o_nickname options) = false ->
     Bot_new options
     = Throw (ConfigurationError
                (lit "Missing configuration field nickname"))) /\
    (truthy_opt (o_server options) = true ->
     truthy_opt (o_nickname options) = true ->
     o_channelMapping options = None ->
     Bot_new options
     = Throw (ConfigurationError
                (lit "Missing configuration field channelMapping"))) /\
    (truthy_opt (o_server options) = true ->
     truthy_opt (o_nickname options) = true ->
     o_channelMapping options <> None ->
     truthy_opt (o_discordToken options) = false ->
     Bot_new options
     = Throw (ConfigurationError
                (lit "Missing configuration field discordToken"))) /\
    (forall bot,
        Bot_new options = Ok bot ->
        o_server options = Some (server bot) /\ server bot <> [] /\
        o_nickname options = Some (nickname bot) /\ nickname bot <> [] /\
        o_discordToken options = Some (discordToken bot) /\
        discordToken bot <> [] /\
        o_channelMapping options <> None).
Proof.
  intros options. unfold Bot_new.
  split; [|split; [|split; [|split]]].
  - intros ->. reflexivity.
  - intros -> ->. reflexivity.
  - intros -> -> ->. reflexivity.
  - intros -> -> Hm ->.
    destruct (o_channelMapping options); [reflexivity | congruence].
  - intros bot H.
    destruct (o_server options) as [[|c s]|]; try discriminate.
    destruct (o_nickname options) as [[|c' n]|]; try discriminate.
    destruct (o_channelMapping options) as [raw|]; try discriminate.
    destruct (o_discordToken options) as [[|c'' t]|]; try discriminate.
    simpl in H. destruct (validateChannelMapping raw); [|discriminate].
    simpl in H. injection H as <-. simpl.
    repeat split; discriminate.
Qed.








(** What a successful construction fixes, for the fields read at
    connection time. *)
Lemma Bot_new_connection_fields : forall options bot,
  Bot_new options = Ok bot ->
  exists raw,
    o_channelMapping options = Some raw /\
    channels bot = Obj.values raw /\
    channelMapping bot = buildChannelMapping raw /\
    autoSendCommands bot =
      match o_autoSendCommands options with Some l => l | None => [] end.
Proof.
  intros options bot H. unfold Bot_new in H.
  destruct (negb (truthy_opt (o_server options))); [discriminate|].
  destruct (negb (truthy_opt (o_nickname options))); [discriminate|].
  destruct (o_channelMapping options) as [raw|]; [|discriminate].
  destruct (negb (truthy_opt (o_discordToken options))); [discriminate|].
  destruct (validateChannelMapping raw) as [[]|e]; simpl in H;
    [|discriminate].
  injection H as <-. exists raw. simpl. auto.
Qed.


(** X7. Invites are matched on the name as received, while the keys of the
    inverted mapping are lower-cased: when lower-casing is idempotent, a
    channel whose name is not already lower-case is no key of the inverted
    mapping, whatever the mapping bridges, and an invite to it is followed by
    a join only when the name is one that the mapping inherits. *)
Theorem invite_is_case_sensitive :
  forall options bot channel from log,
    (forall s, toLowerCase (toLowerCase s) = toLowerCase s) ->
    Bot_new options = Ok bot ->
    toLowerCase channel <> channel ->
    Obj.get (invertedMapping bot) channel = None /\
    onInvite bot channel from log
    = (if Obj.inherited channel then log ++ [Join channel] else log, Ok tt).
Proof.
  intros options bot channel from log Hidem Hnew Hcase.
  assert (G : Obj.get (invertedMapping bot) channel = None).
  { destruct (Obj.get (invertedMapping bot) channel) as [d|] eqn:E;
      [|reflexivity].
    exfalso. apply Hcase.
    destruct (Bot_new_inv _ _ Hnew) as [raw [_ [_ [_ [Hinv _]]]]].
    rewrite Hinv, ObjFacts.get_invert in E.
    apply ObjFacts.last_key_of_in in E.
    apply buildChannelMapping_in in E as [v [_ ->]].
    unfold ircName. apply Hidem. }
  split; [exact G|].
  unfold onInvite, Obj.lookup. rewrite G.
  destruct (Obj.inherited channel); reflexivity.
Qed.

End Construction.

(** ** Connection *)

Section Connection.
Context {host : Host}.

Lemma vget_set_same : forall o k v, Val.get (Val.set o k v) k = Some v.
Proof.
  induction o as [|[k' v'] r IH]; intros k v; simpl.
  - rewrite jseqb_refl. reflexivity.
  - destruct (jseqb k' k) eqn:E; simpl.
    + rewrite jseqb_refl. reflexivity.
    + rewrite E. apply IH.
Qed.

Lemma vget_set_other : forall o k v k',
  k <> k' -> Val.get (Val.set o k v) k' = Val.get o k'.
Proof.
  induction o as [|[k0 v0] r IH]; intros k v k' Hne; simpl.
  - apply jseqb_neq in Hne. rewrite Hne. reflexivity.
  - destruct (jseqb k0 k) eqn:E; simpl.
    + apply jseqb_eq in E. subst k0.
      apply jseqb_neq in Hne. rewrite Hne. reflexivity.
    + destruct (jseqb k0 k'); [reflexivity | apply IH; assumption].
Qed.

Lemma vget_notin : forall o k, Val.get o k = None -> ~ In k (map fst o).
Proof.
  induction o as [|[k0 v0] r IH]; intros k; simpl; [tauto|].
  destruct (jseqb k0 k) eqn:E; [discriminate|].
  apply jseqb_neq in E. intros H [H'|H']; [contradiction|].
  apply (IH _ H H').
Qed.

(** A key that the source lacks keeps the value of the target. *)
Lemma spread_get_notin : forall source target k,
  ~ In k (map fst source) ->
  Val.get (Val.spread target source) k = Val.get target k.
Proof.
  unfold Val.spread.
  induction source as [|[k0 v0] r IH]; intros target k H; simpl in *;
    [reflexivity|].
  rewrite IH by tauto. apply vget_set_other. tauto.
Qed.

(** A key of the source takes the value of the source. *)
Lemma spread_get_in : forall source target k v,
  NoDup (map fst source) ->
  Val.get source k = Some v ->
  Val.get (Val.spread target source) k = Some v.
Proof.
  induction source as [|[k0 v0] r IH]; intros target k v Hnd H; simpl in *;
    [discriminate|].
  inversion Hnd as [|? ? Hnot Hr]; subst.
  destruct (jseqb k0 k) eqn:E.
  - apply jseqb_eq in E. subst k0. injection H as ->.
    change (Val.get (Val.spread (Val.set target k v) r) k = Some v).
    rewrite spread_get_notin by assumption. apply vget_set_same.
  - apply (IH _ _ _ Hr H).
Qed.

(** X5. [connect] logs in to Discord with the token and then creates one
    IRC client for the server and nickname of the bot. In the options of
    that client, every option given by the user under [ircOptions] wins over
    the default of the same name ([channels] included), and every default
    the user does not name is kept: userName and realName are the nickname,
    channels are the raw mapping values, flood protection is on with a delay
    of 500 and the retry count is 10. *)
Theorem user_irc_options_override_defaults :
  forall (bot : Bot) (user : Val.vobj) log,
    NoDup (map fst user) ->
    connect bot (Some user) log
    = (log ++ [Login (discordToken bot);
               NewIrcClient (server bot) (nickname bot)
                            (ircOptionsOf bot (Some user))],
       Ok tt) /\
    (forall k v,
        Val.get user k = Some v ->
        Val.get (ircOptionsOf bot (Some user)) k = Some v) /\
    (forall k,
        Val.get user k = None ->
        Val.get (ircOptionsOf bot (Some user)) k
        = Val.get
            [ (lit "userName", Val.VString (nickname bot));
              (lit "realName", Val.VString (nickname bot));
              (lit "channels", Val.VStrings (channels bot));
              (lit "floodProtection", Val.VBool true);
              (lit "floodProtectionDelay", Val.VNumber 500);
              (lit "retryCount", Val.VNumber 10) ] k).
Proof.
  intros bot user log Hnd. split; [|split].
  - unfold connect, ebind, emit. rewrite <- app_assoc. reflexivity.
  - intros k v H. apply spread_get_in; assumption.
  - intros k H. unfold ircOptionsOf.
    rewrite spread_get_notin by (apply vget_notin; exact H). reflexivity.
Qed.

(** X6. On registration the bot sends the commands configured under
    [autoSendCommands], one [send] call per command with the command's
    elements as arguments, in configuration order, and nothing when the
    option is absent. *)
Theorem registered_sends_configured_commands :
  forall options bot log,
    Bot_new options = Ok bot ->
    onRegistered bot log
    = (log ++ map Send
                  (match o_autoSendCommands options with
                   | Some commands => commands
                   | None => []
                   end),
       Ok tt).
Proof.
  intros options bot log Hnew.
  destruct (Bot_new_connection_fields _ _ Hnew) as [raw [_ [_ [_ Hauto]]]].
  unfold onRegistered. rewrite Hauto. apply forEach_emit.
Qed.

End Connection.

(** ** Discord to IRC: the transform on ordinary bodies *)

Section Transform.
Context {host : Host}.

(** X8. The name shown on IRC for a Discord user is the nickname of the
    guild member with that user's id when the nickname is set and not empty,
    and the username otherwise; it is never empty when the username is not,
    and it is then given one of the twelve colours. *)
Theorem display_name_is_nickname_or_username :
  forall (user : User) (guild : Guild),
    let name := getDiscordNicknameOnServer user guild in
    (name = u_username user \/
     exists member,
       In member (g_members guild) /\ m_id member = u_id user /\
       m_nickname member = Some name /\ name <> []) /\
    (u_username user <> [] ->
     name <> [] /\
     exists color, colorFor name = Some color /\ In color NICK_COLORS).
Proof.
  intros user guild name.
  assert (Hchoice :
    name = u_username user \/
    exists member,
      In member (g_members guild) /\ m_id member = u_id user /\
      m_nickname member = Some name /\ name <> []).
  { unfold name, getDiscordNicknameOnServer, find_member_by_id.
    destruct (find _ (g_members guild)) as [member|] eqn:F; [|auto].
    apply find_some in F as [Hin Hid]. apply jseqb_eq in Hid.
    destruct (m_nickname member) as [[|c nick]|] eqn:Hn; simpl; auto.
    right. exists member. repeat split; auto. discriminate. }
  split; [exact Hchoice|].
  intros Huser.
  assert (Hne : name <> []).
  { destruct Hchoice as [->|[member [_ [_ [_ H]]]]]; assumption. }
  split; [exact Hne|].
  destruct name as [|c rest]; [congruence|].
  unfold colorFor, colorIndex.
  set (i := ((c + N.of_nat (List.length (c :: rest)))
               mod N.of_nat (List.length NICK_COLORS))%N).
  assert (Hi : (i < 12)%N) by (unfold i; apply N.mod_lt; discriminate).
  destruct (nth_error NICK_COLORS (N.to_nat i)) as [color|] eqn:E.
  - exists color. split; [reflexivity|].
    apply nth_error_In with (n := N.to_nat i). exact E.
  - apply nth_error_None in E. rewrite NICK_COLORS_length in E. lia.
Qed.

Lemma starts_with_head : forall p c s,
  starts_with (c :: p) s = true -> exists r, s = c :: r.
Proof.
  intros p c [|y s] H; simpl in H; [discriminate|].
  apply andb_true_iff in H as [Hc _]. apply N.eqb_eq in Hc. subst y. eauto.
Qed.

(** A pattern is not found in a subject that lacks its first unit. *)
Lemma find_first_none : forall p c s,
  ~ In c s -> find_first (c :: p) s = None.
Proof.
  intros p c. induction s as [|y s IH]; intros H.
  - reflexivity.
  - cbn [find_first].
    destruct (starts_with (c :: p) (y :: s)) eqn:E.
    + apply starts_with_head in E as [r E]. injection E as -> _.
      exfalso. apply H. left. reflexivity.
    + rewrite IH by (intros Hin; apply H; right; exact Hin). reflexivity.
Qed.

Lemma replace_absent : forall s p c repl,
  ~ In c s -> replace s (c :: p) repl = s.
Proof.
  intros s p c repl H. unfold replace. rewrite find_first_none by assumption.
  reflexivity.
Qed.

(** A pass whose expression can only match at a given first unit copies a
    text without that unit. *)
Lemma replace_all_untouched : forall (A : Type) matcher replacer s,
  (forall c r, In c s -> matcher (c :: r) = None) ->
  @replace_all A matcher replacer s = Ok s.
Proof.
  intros A matcher replacer. induction s as [|c r IH]; intros H.
  - reflexivity.
  - rewrite replace_all_skip by (apply H; left; reflexivity).
    rewrite IH by (intros c' r' Hin; apply H; right; exact Hin).
    reflexivity.
Qed.

Lemma replace_all_prefix : forall (A : Type) matcher replacer pre s,
  (forall c r, In c pre -> matcher (c :: r) = None) ->
  @replace_all A matcher replacer (pre ++ s) =
  (rest <- replace_all matcher replacer s ;; Ok (pre ++ rest))%js.
Proof.
  intros A matcher replacer. induction pre as [|c pre IH]; intros s H.
  - simpl. destruct (replace_all matcher replacer s); reflexivity.
  - simpl app. rewrite replace_all_skip by (apply H; left; reflexivity).
    rewrite IH by (intros c' r' Hin; apply H; right; exact Hin).
    destruct (replace_all matcher replacer s); reflexivity.
Qed.

Lemma match_newline_other : forall c r,
  c <> 10%N -> c <> 13%N -> match_newline (c :: r) = None.
Proof.
  intros c r H10 H13. unfold match_newline.
  apply N.eqb_neq in H10, H13. rewrite H10, H13. reflexivity.
Qed.

Lemma match_channel_ref_other : forall c r,
  c <> 60%N -> match_channel_ref (c :: r) = None.
Proof.
  intros c r H. unfold match_channel_ref. apply N.eqb_neq in H.
  destruct r; [reflexivity|]. rewrite H. reflexivity.
Qed.

Lemma match_emote_other : forall c r,
  c <> 60%N -> match_emote (c :: r) = None.
Proof.
  intros c r H. unfold match_emote. apply N.eqb_neq in H.
  destruct r; [reflexivity|]. rewrite H. reflexivity.
Qed.

(** No mention pattern is found in a text without [<]. *)
Lemma replaceMention_absent : forall guild content mention,
  ~ In 60%N content -> replaceMention guild content mention = content.
Proof.
  intros guild content mention H. unfold replaceMention.
  change (lit "<@" ++ u_id mention ++ lit ">")
    with (60%N :: 64%N :: u_id mention ++ lit ">").
  change (lit "<@!" ++ u_id mention ++ lit ">")
    with (60%N :: 64%N :: 33%N :: u_id mention ++ lit ">").
  change (lit "<@&" ++ u_id mention ++ lit ">")
    with (60%N :: 64%N :: 38%N :: u_id mention ++ lit ">").
  repeat rewrite (replace_absent content) by assumption. reflexivity.
Qed.

Lemma mentionsReplaced_absent : forall message,
  ~ In 60%N (msg_content message) ->
  mentionsReplaced message = msg_content message.
Proof.
  intros message. unfold mentionsReplaced.
  generalize (msg_content message) as content.
  induction (msg_mentions_users message) as [|u us IH]; intros content H;
    simpl; [reflexivity|].
  rewrite replaceMention_absent by assumption. apply IH. assumption.
Qed.

(** The three passes on a text without [<] and line breaks. *)
Lemma passes_plain : forall discord s,
  ~ In 60%N s -> ~ In 10%N s -> ~ In 13%N s ->
  (t1 <- replace_all match_newline (fun _ => Ok (lit " ")) s ;;
   t2 <- replace_all match_channel_ref (channelReplacer discord) t1 ;;
   replace_all match_emote (fun emoteName => Ok emoteName) t2)%js
  = Ok s.
Proof.
  intros discord s H60 H10 H13.
  rewrite replace_all_untouched
    by (intros c r Hin; apply match_newline_other; intros ->; auto).
  simpl rbind.
  rewrite replace_all_untouched
    by (intros c r Hin; apply match_channel_ref_other; intros ->; auto).
  simpl rbind.
  apply replace_all_untouched.
  intros c r Hin. apply match_emote_other. intros ->. auto.
Qed.

(** X9. A body without [<] and without line breaks is relayed as it is:
    [parseText] returns it unchanged, whoever is mentioned. *)
Theorem plain_body_is_unchanged :
  forall (discord : Discord) (message : Message),
    ~ In 60%N (msg_content message) ->
    ~ In 10%N (msg_content message) ->
    ~ In 13%N (msg_content message) ->
    parseText discord message = Ok (msg_content message).
Proof.
  intros discord message H60 H10 H13. unfold parseText.
  rewrite mentionsReplaced_absent by assumption.
  apply passes_plain; assumption.
Qed.

Lemma starts_with_self : forall p s, starts_with p (p ++ s) = true.
Proof.
  induction p as [|x p IH]; intros s; simpl; [reflexivity|].
  rewrite N.eqb_refl. apply IH.
Qed.

Lemma skipn_length_app : forall (l r : jsstring),
  skipn (List.length l) (l ++ r) = r.
Proof. induction l as [|x l IH]; intros r; simpl; auto. Qed.

(** The first occurrence is the one after a prefix that lacks the first
    unit of the pattern. *)
Lemma find_first_here : forall p c pre post,
  ~ In c pre ->
  find_first (c :: p) (pre ++ (c :: p) ++ post) = Some (pre, post).
Proof.
  intros p c. induction pre as [|y pre IH]; intros post H.
  - rewrite app_nil_l.
    change (find_first (c :: p) ((c :: p) ++ post))
      with (if starts_with (c :: p) ((c :: p) ++ post)
            then Some ([], skipn (List.length (c :: p)) ((c :: p) ++ post))
            else match find_first (c :: p) (p ++ post) with
                 | Some (before, after) => Some (c :: before, after)
                 | None => None
                 end).
    rewrite starts_with_self, skipn_length_app. reflexivity.
  - change ((y :: pre) ++ (c :: p) ++ post)
      with (y :: (pre ++ (c :: p) ++ post)).
    cbn [find_first].
    assert (Hy : N.eqb c y = false)
      by (apply N.eqb_neq; intros ->; apply H; left; reflexivity).
    cbn [starts_with]. rewrite Hy. cbn [andb].
    rewrite IH by (intros Hin; apply H; right; exact Hin). reflexivity.
Qed.

(** A pattern that does not fit at the only place where its first unit
    stands is not found. *)
Lemma find_first_misfit : forall p c pre rest,
  ~ In c pre -> ~ In c rest ->
  starts_with (c :: p) (c :: rest) = false ->
  find_first (c :: p) (pre ++ c :: rest) = None.
Proof.
  intros p c. induction pre as [|y pre IH]; intros rest Hpre Hrest Hfit.
  - rewrite app_nil_l. cbn [find_first]. rewrite Hfit.
    rewrite find_first_none by assumption. reflexivity.
  - change ((y :: pre) ++ c :: rest) with (y :: (pre ++ c :: rest)).
    cbn [find_first].
    assert (Hy : N.eqb c y = false)
      by (apply N.eqb_neq; intros ->; apply Hpre; left; reflexivity).
    cbn [starts_with]. rewrite Hy. cbn [andb].
    rewrite IH; [reflexivity| |assumption|assumption].
    intros Hin. apply Hpre. right. exact Hin.
Qed.

Lemma GetSubstitution_plain : forall matched before after repl,
  ~ In 36%N repl -> GetSubstitution matched before after repl = repl.
Proof.
  intros matched before after. induction repl as [|c r IH]; intros H.
  - reflexivity.
  - rewrite GetSubstitution_head
      by (intros ->; apply H; left; reflexivity).
    rewrite IH by (intros Hin; apply H; right; exact Hin). reflexivity.
Qed.

(** A token rewritten by a pass between two texts that the pass copies. *)
Lemma replace_all_token :
  forall (A : Type) matcher replacer pre tok post cap n out,
    (forall c r, In c pre -> matcher (c :: r) = None) ->
    (forall c r, In c post -> matcher (c :: r) = None) ->
    matcher (tok ++ post) = Some (cap, n) ->
    n = List.length tok -> n <> 0 ->
    replacer cap = Ok out ->
    @replace_all A matcher replacer (pre ++ tok ++ post)
    = Ok (pre ++ out ++ post).
Proof.
  intros A matcher replacer pre tok post cap n out Hpre Hpost M Hn Hn0 R.
  rewrite replace_all_prefix by assumption.
  destruct tok as [|c t]; [simpl in Hn; congruence|].
  change ((c :: t) ++ post) with (c :: (t ++ post)) in *.
  rewrite (replace_all_match _ _ replacer _ _ _ _ M), R.
  subst n. simpl. rewrite skipn_length_app.
  rewrite replace_all_untouched by assumption. reflexivity.
Qed.

Lemma plain_app : forall a b, plain a -> plain b -> plain (a ++ b).
Proof.
  intros a b [Ha1 [Ha2 Ha3]] [Hb1 [Hb2 Hb3]].
  repeat split; intros H; apply in_app_or in H; tauto.
Qed.

Lemma plain_cons : forall c s,
  c <> 60%N -> c <> 10%N -> c <> 13%N -> plain s -> plain (c :: s).
Proof.
  intros c s H1 H2 H3 [Hs1 [Hs2 Hs3]].
  repeat split; intros [H|H]; auto.
Qed.

Lemma plain_class : forall (p : N -> bool) s,
  p 60%N = false -> p 10%N = false -> p 13%N = false ->
  forallb p s = true -> plain s.
Proof.
  intros p s H60 H10 H13 H. rewrite forallb_forall in H.
  repeat split; intros Hin; apply H in Hin; congruence.
Qed.

Lemma passes_plain' : forall discord s,
  plain s ->
  (t1 <- replace_all match_newline (fun _ => Ok (lit " ")) s ;;
   t2 <- replace_all match_channel_ref (channelReplacer discord) t1 ;;
   replace_all match_emote (fun emoteName => Ok emoteName) t2)%js
  = Ok s.
Proof. intros discord s [H1 [H2 H3]]. apply passes_plain; assumption. Qed.

(** The mention patterns all start with [<@]: none is found in a text
    whose only [<] is followed by another unit. *)
Lemma replaceMention_unfound : forall guild mention pre x rest,
  ~ In 60%N pre -> ~ In 60%N rest -> x <> 64%N -> x <> 60%N ->
  replaceMention guild (pre ++ 60%N :: x :: rest) mention
  = pre ++ 60%N :: x :: rest.
Proof.
  intros guild mention pre x rest Hpre Hrest Hx Hx'.
  assert (Hfind : forall p,
            find_first (60%N :: 64%N :: p) (pre ++ 60%N :: x :: rest) = None).
  { intros p. apply find_first_misfit; [assumption| |].
    - intros [H|H]; [congruence | contradiction].
    - cbn [starts_with]. apply N.eqb_neq in Hx.
      rewrite N.eqb_sym in Hx. rewrite Hx. rewrite andb_false_r.
      reflexivity. }
  unfold replaceMention, replace.
  change (lit "<@" ++ u_id mention ++ lit ">")
    with (60%N :: 64%N :: u_id mention ++ lit ">").
  change (lit "<@!" ++ u_id mention ++ lit ">")
    with (60%N :: 64%N :: 33%N :: u_id mention ++ lit ">").
  change (lit "<@&" ++ u_id mention ++ lit ">")
    with (60%N :: 64%N :: 38%N :: u_id mention ++ lit ">").
  rewrite Hfind. rewrite Hfind. rewrite Hfind. reflexivity.
Qed.

Lemma mentionsReplaced_unfound : forall message pre x rest,
  msg_content message = pre ++ 60%N :: x :: rest ->
  ~ In 60%N pre -> ~ In 60%N rest -> x <> 64%N -> x <> 60%N ->
  mentionsReplaced message = msg_content message.
Proof.
  intros message pre x rest E Hpre Hrest Hx Hx'. unfold mentionsReplaced.
  rewrite E. induction (msg_mentions_users message) as [|u us IH]; simpl;
    [reflexivity|].
  rewrite replaceMention_unfound by assumption. exact IH.
Qed.

(** X11. A channel reference [<#id>] whose id is the id of a channel of
    the client, standing in a body that holds no other [<] and no line
    break, is rewritten to [#] and the channel's name, and the rest of the
    body is kept, whoever is mentioned. *)
Theorem channel_reference_is_resolved :
  forall (discord : Discord) (message : Message) id channel pre post,
    msg_content message = pre ++ channelRef id ++ post ->
    id <> [] -> forallb is_digit id = true ->
    channels_get (d_channels discord) id = Some channel ->
    plain pre -> plain post -> ~ In 60%N (ch_name channel) ->
    parseText discord message
    = Ok (pre ++ lit "#" ++ ch_name channel ++ post).
Proof.
  intros discord message id channel pre post E Hne Hd Hget Hpre Hpost Hname.
  assert (Hid : plain id) by (apply (plain_class is_digit); auto).
  assert (Hrest : plain (id ++ lit ">" ++ post)).
  { apply plain_app; [exact Hid|].
    apply plain_cons; try discriminate. exact Hpost. }
  unfold parseText.
  rewrite (mentionsReplaced_unfound message pre 35%N (id ++ lit ">" ++ post));
    [ | | apply Hpre | apply Hrest | discriminate | discriminate ].
  2:{ rewrite E. unfold channelRef. change (lit "<#") with [60%N; 35%N].
      repeat rewrite <- app_assoc. reflexivity. }
  rewrite E.
  rewrite replace_all_untouched.
  2:{ intros c r Hin. destruct Hpre as [_ [Hp10 Hp13]].
      destruct Hpost as [_ [Hq10 Hq13]].
      apply in_app_or in Hin as [Hin|Hin];
        [apply match_newline_other; intros ->; contradiction|].
      apply in_app_or in Hin as [Hin|Hin];
        [|apply match_newline_other; intros ->; contradiction].
      destruct (channelRef_no_linebreak id c Hd Hin).
      apply match_newline_other; assumption. }
  cbn [rbind].
  rewrite (replace_all_token _ match_channel_ref (channelReplacer discord)
             pre (channelRef id) post id (3 + List.length id)
             (lit "#" ++ ch_name channel)).
  - cbn [rbind]. apply replace_all_untouched.
    intros c r Hin. apply match_emote_other. intros ->.
    destruct Hpre as [Hp _]. destruct Hpost as [Hq _].
    apply in_app_or in Hin as [Hin|Hin]; [contradiction|].
    apply in_app_or in Hin as [Hin|Hin];
      [destruct Hin as [Hin|[]]; discriminate|].
    apply in_app_or in Hin as [Hin|Hin]; contradiction.
  - intros c r Hin. apply match_channel_ref_other. intros ->.
    destruct Hpre; tauto.
  - intros c r Hin. apply match_channel_ref_other. intros ->.
    destruct Hpost; tauto.
  - apply match_channel_ref_here; assumption.
  - unfold channelRef. change (lit "<#") with [60%N; 35%N].
    change (lit ">") with [62%N]. simpl. rewrite length_app. simpl. lia.
  - discriminate.
  - unfold channelReplacer. rewrite Hget. reflexivity.
Qed.

Lemma newline_untouched : forall sp s,
  ~ In 10%N s -> ~ In 13%N s ->
  replace_all match_newline (fun _ => Ok sp) s = Ok s.
Proof.
  intros sp s H10 H13. apply replace_all_untouched.
  intros c r Hin. apply match_newline_other; intros ->; contradiction.
Qed.

Lemma channel_pass_untouched : forall discord s,
  ~ In 60%N s ->
  replace_all match_channel_ref (channelReplacer discord) s = Ok s.
Proof.
  intros discord s H. apply replace_all_untouched.
  intros c r Hin. apply match_channel_ref_other. intros ->. contradiction.
Qed.

Lemma emote_pass_untouched : forall s,
  ~ In 60%N s ->
  replace_all match_emote (fun emoteName => Ok emoteName) s = Ok s.
Proof.
  intros s H. apply replace_all_untouched.
  intros c r Hin. apply match_emote_other. intros ->. contradiction.
Qed.

(** The expression matches at a well-formed emote token, capturing the
    name between its colons. *)
Lemma match_emote_here : forall name digits post,
  name <> [] -> forallb is_word name = true ->
  digits <> [] -> forallb is_digit digits = true ->
  match_emote (60%N :: 58%N :: name ++ 58%N :: digits ++ 62%N :: post)
  = Some (58%N :: name ++ [58%N],
          4 + List.length name + List.length digits).
Proof.
  intros name digits post Hn Hw Hd Hdd. unfold match_emote.
  simpl andb. cbv iota.
  rewrite (span_stop is_word name 58 (digits ++ 62%N :: post))
    by (assumption || reflexivity).
  destruct name as [|c name']; [congruence|].
  simpl N.eqb. cbv iota.
  rewrite (span_stop is_digit digits 62 post) by (assumption || reflexivity).
  destruct digits as [|d digits']; [congruence|]. reflexivity.
Qed.

(** X12. A custom emote [<:name:id>] standing in a body that holds no
    other [<] and no line break is rewritten to [:name:], and the rest of
    the body is kept, whoever is mentioned. *)
Theorem emote_is_rewritten :
  forall (discord : Discord) (message : Message) name digits pre post,
    msg_content message
    = pre ++ lit "<:" ++ name ++ lit ":" ++ digits ++ lit ">" ++ post ->
    name <> [] -> forallb is_word name = true ->
    digits <> [] -> forallb is_digit digits = true ->
    plain pre -> plain post ->
    parseText discord message
    = Ok (pre ++ lit ":" ++ name ++ lit ":" ++ post).
Proof.
  intros discord message name digits pre post E Hn Hw Hd Hdd Hpre Hpost.
  change (lit "<:") with [60%N; 58%N] in E.
  change (lit ":") with [58%N] in *. change (lit ">") with [62%N] in E.
  simpl app in E.
  assert (Hname : plain name) by (apply (plain_class is_word); auto).
  assert (Hdigits : plain digits) by (apply (plain_class is_digit); auto).
  assert (Hrest : plain (name ++ 58%N :: digits ++ 62%N :: post)).
  { apply plain_app; [exact Hname|]. apply plain_cons; try discriminate.
    apply plain_app; [exact Hdigits|]. apply plain_cons; try discriminate.
    exact Hpost. }
  unfold parseText.
  rewrite (mentionsReplaced_unfound message pre 58%N
             (name ++ 58%N :: digits ++ 62%N :: post));
    [ | exact E | apply Hpre | apply Hrest | discriminate | discriminate ].
  rewrite E.
  assert (Hall : plain (58%N :: name ++ 58%N :: digits ++ 62%N :: post))
    by (apply plain_cons; try discriminate; exact Hrest).
  rewrite newline_untouched.
  2:{ intros H. apply in_app_or in H as [H|[H|H]];
        [apply Hpre in H | discriminate | apply Hall in H]; exact H. }
  2:{ intros H. apply in_app_or in H as [H|[H|H]];
        [apply Hpre in H | discriminate | apply Hall in H]; exact H. }
  cbn [rbind].
  rewrite replace_all_prefix
    by (intros c r Hin; apply match_channel_ref_other; intros ->;
        apply Hpre in Hin; exact Hin).
  rewrite replace_all_skip by reflexivity.
  rewrite channel_pass_untouched by apply Hall.
  cbn [rbind].
  assert (Etok : 60%N :: 58%N :: name ++ 58%N :: digits ++ 62%N :: post
                 = (60%N :: 58%N :: name ++ 58%N :: digits ++ [62%N]) ++ post).
  { simpl. f_equal. f_equal. rewrite <- app_assoc. simpl.
    rewrite <- app_assoc. reflexivity. }
  rewrite Etok.
  rewrite (replace_all_token _ match_emote (fun emoteName => Ok emoteName)
             pre (60%N :: 58%N :: name ++ 58%N :: digits ++ [62%N]) post
             (58%N :: name ++ [58%N])
             (4 + List.length name + List.length digits)
             (58%N :: name ++ [58%N])).
  - simpl. rewrite <- app_assoc. reflexivity.
  - intros c r Hin. apply match_emote_other. intros ->.
    apply Hpre in Hin. exact Hin.
  - intros c r Hin. apply match_emote_other. intros ->.
    apply Hpost in Hin. exact Hin.
  - rewrite <- Etok. apply match_emote_here; assumption.
  - simpl. rewrite length_app. simpl. rewrite length_app. simpl. lia.
  - discriminate.
  - reflexivity.
Qed.

Lemma replace_here : forall p c pre post repl,
  ~ In c pre -> ~ In 36%N repl ->
  replace (pre ++ (c :: p) ++ post) (c :: p) repl = pre ++ repl ++ post.
Proof.
  intros p c pre post repl Hpre Hrepl. unfold replace.
  rewrite find_first_here by assumption.
  rewrite GetSubstitution_plain by assumption. reflexivity.
Qed.

Lemma replace_misfit : forall p c pre rest repl,
  ~ In c pre -> ~ In c rest ->
  starts_with (c :: p) (c :: rest) = false ->
  replace (pre ++ c :: rest) (c :: p) repl = pre ++ c :: rest.
Proof.
  intros p c pre rest repl Hpre Hrest Hfit. unfold replace.
  rewrite find_first_misfit by assumption. reflexivity.
Qed.

Lemma starts_with_digits_false : forall id x t,
  forallb is_digit id = true -> is_digit x = false -> x <> 62%N ->
  starts_with (id ++ [62%N]) (x :: t) = false.
Proof.
  intros [|d id] x t Hd Hx H62; cbn [app starts_with].
  - apply N.eqb_neq in H62. rewrite N.eqb_sym in H62. rewrite H62.
    reflexivity.
  - cbn [forallb] in Hd. apply andb_true_iff in Hd as [Hd _].
    destruct (N.eqb d x) eqn:E; [|reflexivity].
    apply N.eqb_eq in E. subst d. congruence.
Qed.

(** X10. A mention of the one mentioned user, in any of the three
    encodings [<@id>], [<@!id>] and [<@&id>], standing in a body that holds
    no other [<] and no line break, is rewritten to [@] and the user's
    display name, and the rest of the body is kept (the display name being
    free of [$], [<] and line breaks). *)
Theorem mention_is_rewritten :
  forall (discord : Discord) (message : Message) user mid pre post,
    msg_mentions_users message = [user] ->
    mid = [] \/ mid = lit "!" \/ mid = lit "&" ->
    forallb is_digit (u_id user) = true ->
    msg_content message
    = pre ++ lit "<@" ++ mid ++ u_id user ++ lit ">" ++ post ->
    plain pre -> plain post ->
    plain (getDiscordNicknameOnServer user (msg_guild message)) ->
    ~ In 36%N (getDiscordNicknameOnServer user (msg_guild message)) ->
    parseText discord message
    = Ok (pre ++ lit "@"
              ++ getDiscordNicknameOnServer user (msg_guild message) ++ post).
Proof.
  intros discord message user mid pre post Hus Hmid Hd E
         Hpre Hpost Hname Hdollar.
  set (name := getDiscordNicknameOnServer user (msg_guild message)) in *.
  set (id := u_id user) in *.
  assert (Hid : plain id) by (apply (plain_class is_digit); auto).
  assert (Hrepl : ~ In 36%N (64%N :: name))
    by (intros [H|H]; [discriminate | contradiction]).
  assert (Hout : plain (pre ++ 64%N :: name ++ post)).
  { apply plain_app; [exact Hpre|]. apply plain_cons; try discriminate.
    apply plain_app; assumption. }
  assert (Htail : forall m, m <> 60%N ->
            ~ In 60%N (64%N :: m :: id ++ 62%N :: post)).
  { intros m Hm [H|[H|H]]; try congruence.
    apply in_app_or in H as [H|[H|H]];
      [apply Hid in H | discriminate | apply Hpost in H]; exact H. }
  assert (Hmentions :
    mentionsReplaced message = pre ++ 64%N :: name ++ post).
  { unfold mentionsReplaced. rewrite Hus, E. simpl fold_left.
    unfold replaceMention. fold name. fold id.
    change (lit "<@" ++ id ++ lit ">") with (60%N :: 64%N :: id ++ [62%N]).
    change (lit "<@!" ++ id ++ lit ">")
      with (60%N :: 64%N :: 33%N :: id ++ [62%N]).
    change (lit "<@&" ++ id ++ lit ">")
      with (60%N :: 64%N :: 38%N :: id ++ [62%N]).
    change (lit "@" ++ name) with (64%N :: name).
    destruct Hmid as [ -> | [ -> | -> ] ].
    - match goal with
      | |- context [replace ?c (60%N :: 64%N :: id ++ [62%N]) _] =>
          replace c with (pre ++ (60%N :: 64%N :: id ++ [62%N]) ++ post)
            by (simpl; rewrite <- app_assoc; reflexivity)
      end.
      rewrite replace_here by (assumption || apply Hpre).
      change ((64%N :: name) ++ post) with (64%N :: name ++ post).
      rewrite (replace_absent (pre ++ 64%N :: name ++ post)) by apply Hout.
      rewrite (replace_absent (pre ++ 64%N :: name ++ post)) by apply Hout. reflexivity.
    - match goal with
      | |- context [replace ?c (60%N :: 64%N :: id ++ [62%N]) _] =>
          change c with (pre ++ 60%N :: 64%N :: 33%N :: id ++ 62%N :: post)
      end.
      rewrite replace_misfit;
        [ | apply Hpre | apply Htail; discriminate
          | cbn [starts_with]; rewrite !N.eqb_refl; cbn [andb];
            apply starts_with_digits_false;
            [assumption | reflexivity | discriminate] ].
      replace (pre ++ 60%N :: 64%N :: 33%N :: id ++ 62%N :: post)
        with (pre ++ (60%N :: 64%N :: 33%N :: id ++ [62%N]) ++ post)
        by (simpl; rewrite <- app_assoc; reflexivity).
      rewrite replace_here by (assumption || apply Hpre).
      change ((64%N :: name) ++ post) with (64%N :: name ++ post).
      rewrite (replace_absent (pre ++ 64%N :: name ++ post)) by apply Hout. reflexivity.
    - match goal with
      | |- context [replace ?c (60%N :: 64%N :: id ++ [62%N]) _] =>
          change c with (pre ++ 60%N :: 64%N :: 38%N :: id ++ 62%N :: post)
      end.
      rewrite replace_misfit;
        [ | apply Hpre | apply Htail; discriminate
          | cbn [starts_with]; rewrite !N.eqb_refl; cbn [andb];
            apply starts_with_digits_false;
            [assumption | reflexivity | discriminate] ].
      rewrite replace_misfit;
        [ | apply Hpre | apply Htail; discriminate | reflexivity ].
      replace (pre ++ 60%N :: 64%N :: 38%N :: id ++ 62%N :: post)
        with (pre ++ (60%N :: 64%N :: 38%N :: id ++ [62%N]) ++ post)
        by (simpl; rewrite <- app_assoc; reflexivity).
      rewrite replace_here by (assumption || apply Hpre).
      reflexivity. }
  unfold parseText. rewrite Hmentions.
  change (pre ++ lit "@" ++ name ++ post) with (pre ++ 64%N :: name ++ post).
  apply passes_plain'. exact Hout.
Qed.

(** ** What the transform lets through *)

Lemma match_newline_none : forall c r,
  match_newline (c :: r) = None -> c <> 10%N /\ c <> 13%N.
Proof.
  intros c r H. unfold match_newline in H.
  destruct (N.eqb c 10) eqn:E10; [discriminate|].
  destruct (N.eqb c 13) eqn:E13.
  - destruct r as [|d r']; [discriminate|].
    destruct (N.eqb d 10); discriminate.
  - apply N.eqb_neq in E10, E13. auto.
Qed.

(** The newline pass leaves no line break. *)
Lemma newline_pass_folds : forall sp s n out,
  ~ In 10%N sp -> ~ In 13%N sp ->
  replace_from match_newline (fun _ => Ok sp) n s = Ok out ->
  ~ In 10%N out /\ ~ In 13%N out.
Proof.
  intros sp s. induction s as [|c r IH]; intros n out H10 H13 H.
  - simpl in H. injection H as <-. simpl. tauto.
  - destruct n as [|k]; [|apply (IH k); assumption].
    cbn [replace_from] in H.
    destruct (match_newline (c :: r)) as [[[] m]|] eqn:M; unfold rbind in H.
    + destruct (replace_from _ _ (pred m) r) as [rest|] eqn:R;
        [|discriminate].
      injection H as <-. destruct (IH _ _ H10 H13 R) as [I10 I13].
      split; intros Hin; apply in_app_or in Hin; tauto.
    + destruct (replace_from _ _ 0 r) as [rest|] eqn:R; [|discriminate].
      injection H as <-. destruct (IH _ _ H10 H13 R) as [I10 I13].
      destruct (match_newline_none _ _ M) as [Hc10 Hc13].
      split; intros [Hin|Hin]; auto.
Qed.

(** The units that a pass puts out satisfy what the units of its input and
    of its replacements satisfy. *)
Lemma replace_from_forall :
  forall (A : Type) matcher replacer (P : N -> Prop),
    (forall cap out, replacer cap = Ok out ->
                     (exists s n, matcher s = Some (cap, n)) ->
                     Forall P out) ->
    forall s n out,
      Forall P s ->
      @replace_from A matcher replacer n s = Ok out -> Forall P out.
Proof.
  intros A matcher replacer P Hrepl.
  induction s as [|c r IH]; intros n out Hs H.
  - simpl in H. injection H as <-. constructor.
  - inversion Hs as [|? ? Hc Hr]; subst.
    destruct n as [|k]; [|apply (IH k); assumption].
    cbn [replace_from] in H.
    destruct (matcher (c :: r)) as [[cap m]|] eqn:M; unfold rbind in H.
    + destruct (replacer cap) as [o|] eqn:R; [|discriminate].
      destruct (replace_from _ _ (pred m) r) as [rest|] eqn:Rr;
        [|discriminate].
      injection H as <-. apply Forall_app. split.
      * apply (Hrepl _ _ R). eauto.
      * apply (IH _ _ Hr Rr).
    + destruct (replace_from _ _ 0 r) as [rest|] eqn:Rr; [|discriminate].
      injection H as <-. constructor; [exact Hc | apply (IH _ _ Hr Rr)].
Qed.

Lemma match_emote_inv : forall s cap n,
  match_emote s = Some (cap, n) ->
  exists name, cap = 58%N :: name ++ [58%N] /\ forallb is_word name = true.
Proof.
  intros s cap n H. unfold match_emote in H.
  destruct s as [|a [|b r]]; try discriminate.
  destruct (N.eqb a 60 && N.eqb b 58); [|discriminate].
  destruct (span is_word r) as [name after] eqn:E.
  destruct name as [|c name']; [discriminate|].
  destruct after as [|d after']; [discriminate|].
  destruct (N.eqb d 58); [|discriminate].
  destruct (span is_digit after') as [[|x digits] [|e rest]];
    try discriminate.
  destruct (N.eqb e 62); [|discriminate].
  injection H as <- _. apply span_app in E as [_ Hw].
  exists (c :: name'). split; [reflexivity | exact Hw].
Qed.

(** X13. What [parseText] returns holds no line break, as long as no
    channel of the client has one in its name: line breaks of the body and
    of the display names are folded to spaces before channel names are put
    in. *)
Theorem transformed_body_has_no_line_break :
  forall (discord : Discord) (message : Message) text,
    (forall channel, In channel (d_channels discord) ->
                     ~ In 10%N (ch_name channel) /\
                     ~ In 13%N (ch_name channel)) ->
    parseText discord message = Ok text ->
    ~ In 10%N text /\ ~ In 13%N text.
Proof.
  intros discord message text Hnames H. unfold parseText, rbind in H.
  destruct (replace_all match_newline _ _) as [t1|] eqn:E1; [|discriminate].
  destruct (replace_all match_channel_ref _ t1) as [t2|] eqn:E2;
    [|discriminate].
  set (P := fun c : N => c <> 10%N /\ c <> 13%N).
  assert (Hfold : forall s, Forall P s <-> ~ In 10%N s /\ ~ In 13%N s).
  { intros s. rewrite Forall_forall. unfold P. split.
    - intros HP. split; intros Hin; apply HP in Hin; tauto.
    - intros [H10 H13] c Hin. split; intros ->; contradiction. }
  apply Hfold.
  assert (H1 : Forall P t1).
  { apply Hfold.
    apply (newline_pass_folds (lit " ") (mentionsReplaced message) 0 t1);
      [intros [?|[]]; discriminate | intros [?|[]]; discriminate | exact E1]. }
  assert (H2 : Forall P t2).
  { apply (replace_from_forall _ match_channel_ref (channelReplacer discord) P)
      with (s := t1) (n := 0); [|exact H1|exact E2].
    intros cap out R _. unfold channelReplacer, channels_get in R.
    destruct (find _ (d_channels discord)) as [channel|] eqn:F;
      [|discriminate].
    injection R as <-. apply find_some in F as [Hin _].
    apply Hfold. destruct (Hnames _ Hin) as [N10 N13].
    split; intros [?|?]; try discriminate; contradiction. }
  apply (replace_from_forall _ match_emote (fun emoteName => Ok emoteName) P)
    with (s := t2) (n := 0); [|exact H2|exact H].
  intros cap out R [s [n M]]. injection R as <-.
  apply match_emote_inv in M as [name [-> Hw]].
  apply Hfold. rewrite forallb_forall in Hw.
  split; intros [?|Hin]; try discriminate;
    apply in_app_or in Hin as [Hin|[?|[]]]; try discriminate;
    apply Hw in Hin; discriminate.
Qed.

(** A pass throws only what its replacer throws at a match. *)
Lemma replace_from_throw_inv : forall (A : Type) matcher replacer s n e,
  @replace_from A matcher replacer n s = Throw e ->
  exists pre s' cap k,
    s = pre ++ s' /\ matcher s' = Some (cap, k) /\ replacer cap = Throw e.
Proof.
  intros A matcher replacer. induction s as [|c r IH]; intros n e H.
  - discriminate.
  - assert (Hlift : forall n', replace_from matcher replacer n' r = Throw e ->
              exists pre s' cap k,
                c :: r = pre ++ s' /\ matcher s' = Some (cap, k) /\
                replacer cap = Throw e).
    { intros n' Hr. destruct (IH _ _ Hr) as [pre [s' [cap [k [-> [M R]]]]]].
      exists (c :: pre), s', cap, k. auto. }
    destruct n as [|k]; [|apply (Hlift k); exact H].
    cbn [replace_from] in H.
    destruct (matcher (c :: r)) as [[cap m]|] eqn:M; unfold rbind in H.
    + destruct (replacer cap) as [o|e'] eqn:R.
      * destruct (replace_from _ _ (pred m) r) as [rest|e'] eqn:Rr;
          [discriminate|].
        injection H as <-. apply (Hlift _ Rr).
      * injection H as <-. exists [], (c :: r), cap, m. auto.
    + destruct (replace_from _ _ 0 r) as [rest|e'] eqn:Rr; [discriminate|].
      injection H as <-. apply (Hlift _ Rr).
Qed.

Lemma match_channel_ref_nonempty : forall s cap n,
  match_channel_ref s = Some (cap, n) -> cap <> [].
Proof.
  intros s cap n H. unfold match_channel_ref in H.
  destruct s as [|a [|b r]]; try discriminate.
  destruct (N.eqb a 60 && N.eqb b 35); [|discriminate].
  destruct (span is_digit r) as [[|d ds] [|c after]]; try discriminate.
  destruct (N.eqb c 62); [|discriminate].
  injection H as <- _. discriminate.
Qed.

(** X14. [parseText] throws nothing but the TypeError of an unknown
    channel: when it throws, the text it had after the mentions and the
    line breaks were dealt with holds a channel reference [<#id>], with a
    non-empty id of digits, that is the id of no channel of the client. *)
Theorem transform_throws_only_on_unknown_channel :
  forall (discord : Discord) (message : Message) e,
    parseText discord message = Throw e ->
    e = TypeError /\
    exists folded id,
      replace_all match_newline (fun _ => Ok (lit " "))
                  (mentionsReplaced message) = Ok folded /\
      contains (channelRef id) folded /\
      id <> [] /\ forallb is_digit id = true /\
      channels_get (d_channels discord) id = None.
Proof.
  intros discord message e H. unfold parseText in H.
  destruct (newline_total (lit " ") (mentionsReplaced message) 0)
    as [folded E1].
  unfold replace_all in H at 1. rewrite E1 in H. cbn [rbind] in H.
  destruct (replace_all match_channel_ref (channelReplacer discord) folded)
    as [t2|e'] eqn:E2; cbn [rbind] in H.
  - apply replace_from_throw_inv in H
      as [pre [s' [cap [k [_ [_ R]]]]]]. discriminate.
  - injection H as <-.
    apply replace_from_throw_inv in E2 as [pre [s' [cap [k [Es [M R]]]]]].
    unfold channelReplacer in R.
    destruct (channels_get (d_channels discord) cap) eqn:G; [discriminate|].
    injection R as <-. split; [reflexivity|].
    assert (Hne := match_channel_ref_nonempty _ _ _ M).
    apply match_channel_ref_inv in M as [rest [-> [Hd _]]].
    exists folded, cap. split; [exact E1|]. split.
    + exists pre, rest. exact Es.
    + auto.
Qed.

End Transform.

(** ** The calls of the two relay functions *)

Section Calls.
Context {host : Host}.

(** The result of [sendToIRC] once the transform has returned. *)
Lemma sendToIRC_reached :
  forall bot discord message ircChannel text log,
    jseqb (u_id (msg_author message)) (u_id (d_user discord)) = false ->
    Obj.get (channelMapping bot) (lit "#" ++ msg_channel_name message)
      = Some ircChannel ->
    truthy ircChannel = true ->
    parseText discord message = Ok text ->
    exists lines,
      sendToIRC bot discord message log = (log ++ lines, Ok tt) /\
      (forall call, In call lines -> exists t, call = Say ircChannel t) /\
      List.length lines
      <= Nat.max 2 (1 + List.length
                          (match msg_attachments message with
                           | Some l => l
                           | None => []
                           end)).
Proof.
  intros bot discord message ircChannel text log Hauthor Hmap Ht Hparse.
  unfold sendToIRC. rewrite Hauthor, Hmap, Ht.
  unfold ebind at 1. unfold lift. rewrite Hparse.
  set (display := displayUsernameOf bot _).
  destruct (isCommandMessage bot text).
  - eexists. split.
    + unfold ebind, emit. rewrite <- app_assoc. reflexivity.
    + split; [|cbn [List.length app]; lia].
      intros call [<-|[<-|[]]]; eauto.
  - set (urls := map (fun a => Say ircChannel
                                 (lit "<" ++ display ++ lit "> " ++ a_url a))
                     (match msg_attachments message with
                      | Some l => l
                      | None => []
                      end)).
    assert (Hatt : forall log',
      match msg_attachments message with
      | Some ((_ :: _) as attachments) =>
          forEach attachments (fun a =>
            emit (Say ircChannel
                    (lit "<" ++ display ++ lit "> " ++ a_url a)))
      | _ => eret tt
      end log' = (log' ++ urls, Ok tt)).
    { intros log'. unfold urls.
      destruct (msg_attachments message) as [[|a l]|].
      - unfold eret. simpl. rewrite app_nil_r. reflexivity.
      - apply forEach_emit.
      - unfold eret. simpl. rewrite app_nil_r. reflexivity. }
    assert (Hurls : forall call, In call urls ->
                                 exists t, call = Say ircChannel t).
    { intros call Hin. unfold urls in Hin.
      apply in_map_iff in Hin as [a [<- _]]. eauto. }
    assert (Hlen : List.length urls
                   = List.length (match msg_attachments message with
                                  | Some l => l
                                  | None => []
                                  end))
      by (unfold urls; apply length_map).
    unfold ebind. destruct (truthy text); unfold emit, eret; rewrite Hatt.
    + eexists. split; [rewrite <- app_assoc; reflexivity|]. split.
      * intros call [<-|Hin]; [eauto | apply Hurls; exact Hin].
      * cbn [List.length app]. rewrite Hlen. lia.
    + exists urls. split; [reflexivity|]. split; [exact Hurls|].
      rewrite Hlen. lia.
Qed.

(** X15. Whatever the message, [sendToIRC] only adds calls at the end of
    the log, and each added call is a [say] on the IRC channel that the
    forward mapping gives for [#] and the name of the message's channel;
    they are two at most for a command and one plus the number of
    attachments at most otherwise; a message of the bot itself adds none,
    and when [sendToIRC] throws, nothing was said. *)
Theorem relay_to_irc_says_only_to_the_mapped_channel :
  forall (bot : Bot) (discord : Discord) (message : Message) log,
    exists calls,
      fst (sendToIRC bot discord message log) = log ++ calls /\
      List.length calls
      <= Nat.max 2 (1 + List.length
                          (match msg_attachments message with
                           | Some l => l
                           | None => []
                           end)) /\
      (forall e, snd (sendToIRC bot discord message log) = Throw e ->
                 calls = []) /\
      (calls <> [] ->
       u_id (msg_author message) <> u_id (d_user discord) /\
       exists ircChannel,
         Obj.get (channelMapping bot) (lit "#" ++ msg_channel_name message)
           = Some ircChannel /\
         forall call, In call calls -> exists t, call = Say ircChannel t).
Proof.
  intros bot discord message log.
  assert (Hnone : forall r,
    sendToIRC bot discord message log = (log, r) ->
    exists calls,
      fst (sendToIRC bot discord message log) = log ++ calls /\
      List.length calls
      <= Nat.max 2 (1 + List.length
                          (match msg_attachments message with
                           | Some l => l
                           | None => []
                           end)) /\
      (forall e, snd (sendToIRC bot discord message log) = Throw e ->
                 calls = []) /\
      (calls <> [] ->
       u_id (msg_author message) <> u_id (d_user discord) /\
       exists ircChannel,
         Obj.get (channelMapping bot) (lit "#" ++ msg_channel_name message)
           = Some ircChannel /\
         forall call, In call calls -> exists t, call = Say ircChannel t)).
  { intros r E. exists []. rewrite E, app_nil_r. simpl.
    split; [reflexivity|]. split; [lia|]. split; [reflexivity|].
    intros H. congruence. }
  destruct (jseqb (u_id (msg_author message)) (u_id (d_user discord)))
    eqn:Hauthor.
  { apply (Hnone (Ok tt)). unfold sendToIRC. rewrite Hauthor. reflexivity. }
  destruct (Obj.get (channelMapping bot)
                    (lit "#" ++ msg_channel_name message))
    as [ircChannel|] eqn:Hmap.
  2:{ apply (Hnone (Ok tt)). unfold sendToIRC. rewrite Hauthor, Hmap.
      reflexivity. }
  destruct (truthy ircChannel) eqn:Ht.
  2:{ apply (Hnone (Ok tt)). unfold sendToIRC. rewrite Hauthor, Hmap, Ht.
      reflexivity. }
  destruct (parseText discord message) as [text|e] eqn:Hparse.
  2:{ apply (Hnone (Throw e)). unfold sendToIRC.
      rewrite Hauthor, Hmap, Ht. unfold ebind, lift. rewrite Hparse.
      reflexivity. }
  destruct (sendToIRC_reached bot discord message ircChannel text log
              Hauthor Hmap Ht Hparse) as [lines [E [Hsay Hlen]]].
  exists lines. rewrite E. simpl.
  split; [reflexivity|]. split; [exact Hlen|]. split; [discriminate|].
  intros _. split; [apply jseqb_neq; exact Hauthor|].
  exists ircChannel. split; [reflexivity | exact Hsay].
Qed.

(** X16. Whatever the IRC message, [sendToDiscord] adds one call at most
    to the log, none when it throws; the call sends, to a channel of the
    client whose type is [text] and whose name is the Discord identifier of
    the inverted mapping without its first unit, the author between
    [**<] and [>**], a space and the body after the mention pass. *)
Theorem relay_to_discord_sends_once_to_the_text_channel :
  forall (bot : Bot) (discord : Discord) (author channel text : jsstring) log,
    exists calls,
      fst (sendToDiscord bot discord author channel text log) = log ++ calls /\
      List.length calls <= 1 /\
      (forall e,
          snd (sendToDiscord bot discord author channel text log) = Throw e ->
          calls = []) /\
      (forall call, In call calls ->
         exists name discordChannel body,
           call = SendMessage discordChannel
                    (lit "**<" ++ author ++ lit ">** " ++ body) /\
           Obj.get (invertedMapping bot) (toLowerCase channel) = Some name /\
           In discordChannel (d_channels discord) /\
           ch_type discordChannel = lit "text" /\
           ch_name discordChannel = skipn 1 name /\
           withMentions discord (ch_guild discordChannel) text = Ok body).
Proof.
  intros bot discord author channel text log.
  assert (Hnone : forall r,
    sendToDiscord bot discord author channel text log = (log, r) ->
    exists calls : list discord_call,
      fst (sendToDiscord bot discord author channel text log) = log ++ calls /\
      List.length calls <= 1 /\
      (forall e,
          snd (sendToDiscord bot discord author channel text log) = Throw e ->
          calls = []) /\
      (forall call, In call calls ->
         exists name discordChannel body,
           call = SendMessage discordChannel
                    (lit "**<" ++ author ++ lit ">** " ++ body) /\
           Obj.get (invertedMapping bot) (toLowerCase channel) = Some name /\
           In discordChannel (d_channels discord) /\
           ch_type discordChannel = lit "text" /\
           ch_name discordChannel = skipn 1 name /\
           withMentions discord (ch_guild discordChannel) text = Ok body)).
  { intros r E. exists []. rewrite E, app_nil_r. simpl.
    split; [reflexivity|]. split; [lia|]. split; [reflexivity|].
    intros call []. }
  unfold sendToDiscord, Obj.lookup in *.
  destruct (Obj.get (invertedMapping bot) (toLowerCase channel))
    as [name|] eqn:Hget;
    [|destruct (Obj.inherited (toLowerCase channel));
      [apply (Hnone (Throw TypeError)) | apply (Hnone (Ok tt))];
      reflexivity].
  destruct (truthy name); [|apply (Hnone (Ok tt)); reflexivity].
  destruct (find_channel_by_name _ (skipn 1 name)) as [dc|] eqn:Hfind;
    [|apply (Hnone (Ok tt)); reflexivity].
  unfold ebind, lift in *.
  destruct (withMentions discord (ch_guild dc) text) as [body|e] eqn:Hm;
    [|apply (Hnone (Throw e)); reflexivity].
  clear Hnone. unfold emit. eexists. split; [reflexivity|].
  split; [simpl; lia|]. split; [discriminate|].
  intros call [<-|[]].
  unfold find_channel_by_name in Hfind.
  apply find_some in Hfind as [Hin Hname]. apply jseqb_eq in Hname.
  apply filter_In in Hin as [Hin Htype]. apply jseqb_eq in Htype.
  exists name, dc, body. auto 10.
Qed.

(** X17. When the IRC channel is bridged but the client has no channel of
    type [text] with the mapped name (the bot is not in it, or the name is
    that of a voice channel only), the message is dropped: no call, no
    error. *)
Theorem unavailable_discord_channel_is_dropped :
  forall (bot : Bot) (discord : Discord) (author channel text : jsstring)
         name log,
    Obj.get (invertedMapping bot) (toLowerCase channel) = Some name ->
    (forall discordChannel,
        In discordChannel (d_channels discord) ->
        ch_type discordChannel = lit "text" ->
        ch_name discordChannel <> skipn 1 name) ->
    sendToDiscord bot discord author channel text log = (log, Ok tt).
Proof.
  intros bot discord author channel text name log Hget Hnone.
  unfold sendToDiscord. rewrite (ObjFacts.lookup_own _ _ _ Hget).
  destruct (truthy name); [|reflexivity].
  destruct (find_channel_by_name _ (skipn 1 name)) as [dc|] eqn:Hfind;
    [|reflexivity].
  exfalso. unfold find_channel_by_name in Hfind.
  apply find_some in Hfind as [Hin Hname]. apply jseqb_eq in Hname.
  apply filter_In in Hin as [Hin Htype]. apply jseqb_eq in Htype.
  apply (Hnone dc Hin Htype Hname).
Qed.

End Calls.

(** ** IRC to Discord: what the mention pass keeps and when it throws *)

Section MentionPass.
Context {host : Host}.

Lemma span_fst_prefix : forall p s, exists rest, s = fst (span p s) ++ rest.
Proof.
  intros p s. destruct (span p s) as [a b] eqn:E.
  apply span_app in E as [-> _]. exists b. reflexivity.
Qed.

(** Putting [@] and the token back in front of what follows the token
    gives the text back. *)
Lemma token_then_rest : forall r token n,
  match_mention (64%N :: r) = Some (token, n) ->
  token ++ skipn (pred n) r = r.
Proof.
  intros r token n M.
  destruct (match_mention_inv _ _ _ M) as [k [-> [Hk [-> _]]]].
  destruct (span_fst_prefix not_space r) as [rest Hr].
  remember (fst (span not_space r)) as run eqn:Hrun. clear Hrun M.
  subst r. simpl pred.
  assert (F : firstn k (run ++ rest) = firstn k run).
  { rewrite firstn_app. replace (k - List.length run) with 0 by lia.
    simpl. apply app_nil_r. }
  rewrite <- F. apply firstn_skipn.
Qed.

Lemma withMentions_verbatim : forall discord guild n text,
  List.length text <= n ->
  (forall pre r token m,
      text = pre ++ 64%N :: r ->
      match_mention (64%N :: r) = Some (token, m) ->
      mentionReplacer discord guild token = Ok (64%N :: token)) ->
  withMentions discord guild text = Ok text.
Proof.
  intros discord guild. induction n as [|n IH]; intros text Hlen Hq.
  - destruct text; [reflexivity | simpl in Hlen; lia].
  - destruct text as [|c r]; [reflexivity|]. unfold withMentions in *.
    assert (Htail : forall j,
              replace_all match_mention (mentionReplacer discord guild)
                          (skipn j r) = Ok (skipn j r)).
    { intros j. apply IH.
      - rewrite length_skipn. simpl in Hlen. lia.
      - intros pre r' token m E M.
        apply (Hq (c :: firstn j r ++ pre) r' token m); [|exact M].
        simpl. rewrite <- app_assoc, <- E, firstn_skipn. reflexivity. }
    destruct (match_mention (c :: r)) as [[token m]|] eqn:M.
    + assert (c = 64%N).
      { destruct (N.eq_dec c 64) as [E|E]; [exact E|].
        rewrite match_mention_other in M by exact E. discriminate. }
      subst c.
      rewrite (replace_all_match _ _ _ _ _ _ _ M).
      rewrite (Hq [] r token m eq_refl M). cbn [rbind].
      rewrite Htail. cbn [rbind]. simpl.
      rewrite (token_then_rest _ _ _ M). reflexivity.
    + rewrite (replace_all_skip _ _ _ _ _ M).
      change r with (skipn 0 r) at 1. rewrite Htail. reflexivity.
Qed.

(** X18. When no token that follows an [@] of the text is the nickname of a
    guild member or the username of a user, the mention pass returns the
    text as it is. *)
Theorem unresolved_names_are_relayed_verbatim :
  forall (discord : Discord) (guild : Guild) (text : jsstring),
    (forall pre r token n,
        text = pre ++ 64%N :: r ->
        match_mention (64%N :: r) = Some (token, n) ->
        find_member_by_nickname guild token = None /\
        find_user_by_username (d_users discord) token = None) ->
    withMentions discord guild text = Ok text.
Proof.
  intros discord guild text H.
  apply (withMentions_verbatim discord guild (List.length text));
    [apply Nat.le_refl|].
  intros pre r token m E M. destruct (H pre r token m E M) as [Hn Hu].
  unfold mentionReplacer. rewrite Hn, Hu. reflexivity.
Qed.

(** A pass whose replacer always returns, returns. *)
Lemma replace_from_total : forall (A : Type) matcher replacer,
  (forall cap, exists out, replacer cap = Ok out) ->
  forall s n, exists out, @replace_from A matcher replacer n s = Ok out.
Proof.
  intros A matcher replacer Hf.
  induction s as [|c r IH]; intros n; [simpl; eauto|].
  destruct n as [|k]; [|apply IH]. cbn [replace_from].
  destruct (matcher (c :: r)) as [[cap m]|]; unfold rbind.
  - destruct (Hf cap) as [out ->]. destruct (IH (pred m)) as [rest ->].
    eauto.
  - destruct (IH 0) as [rest ->]. eauto.
Qed.

(** X19. When every user of the client is a member of the guild of each
    of its channels, the nickname read after a username match is always that
    of an existing member, and [sendToDiscord] throws in one case only: the
    lower-cased target is no key of the inverted mapping but a name that the
    mapping inherits, and the TypeError is that of the missing [slice]. *)
Theorem relay_to_discord_returns_when_users_are_members :
  forall (bot : Bot) (discord : Discord) (author channel text : jsstring) log,
    (forall discordChannel user,
        In discordChannel (d_channels discord) ->
        In user (d_users discord) ->
        find_member_by_id (ch_guild discordChannel) (u_id user) <> None) ->
    snd (sendToDiscord bot discord author channel text log)
    = match Obj.lookup (invertedMapping bot) (toLowerCase channel) with
      | Obj.Inherited => Throw TypeError
      | _ => Ok tt
      end.
Proof.
  intros bot discord author channel text log Hmembers.
  unfold sendToDiscord.
  destruct (Obj.lookup (invertedMapping bot) (toLowerCase channel))
    as [name| |]; [|reflexivity|reflexivity].
  destruct (truthy name); [|reflexivity].
  destruct (find_channel_by_name _ (skipn 1 name)) as [dc|] eqn:Hfind;
    [|reflexivity].
  unfold find_channel_by_name in Hfind.
  apply find_some in Hfind as [Hin _]. apply filter_In in Hin as [Hin _].
  destruct (replace_from_total _ match_mention
              (mentionReplacer discord (ch_guild dc))) with (s := text) (n := 0)
    as [out E].
  - intros token. unfold mentionReplacer.
    destruct (find_member_by_nickname (ch_guild dc) token); [eauto|].
    destruct (find_user_by_username (d_users discord) token) as [user|] eqn:U;
      [|eauto].
    unfold find_user_by_username in U. apply find_some in U as [Hu _].
    destruct (find_member_by_id (ch_guild dc) (u_id user)) as [member|] eqn:F.
    + destruct (_ || _); eauto.
    + exfalso. apply (Hmembers dc user Hin Hu F).
  - unfold ebind, lift, withMentions, replace_all. rewrite E. reflexivity.
Qed.

(** X20. When the first token of the text is nobody's nickname in the
    guild of the target channel and is the username of a user who is not a
    member of that guild, [sendToDiscord] throws a TypeError and sends
    nothing: the member looked up by id is missing and its nickname is read
    all the same. *)
Theorem username_of_a_non_member_throws :
  forall (bot : Bot) (discord : Discord) (author channel text : jsstring)
         name discordChannel log pre r token n user,
    Obj.get (invertedMapping bot) (toLowerCase channel) = Some name ->
    truthy name = true ->
    find_channel_by_name
      (filter (fun c => jseqb (ch_type c) (lit "text")) (d_channels discord))
      (skipn 1 name) = Some discordChannel ->
    text = pre ++ 64%N :: r ->
    ~ In 64%N pre ->
    match_mention (64%N :: r) = Some (token, n) ->
    find_member_by_nickname (ch_guild discordChannel) token = None ->
    find_user_by_username (d_users discord) token = Some user ->
    find_member_by_id (ch_guild discordChannel) (u_id user) = None ->
    sendToDiscord bot discord author channel text log = (log, Throw TypeError).
Proof.
  intros bot discord author channel text name dc log pre r token n user
         Hget Ht Hfind -> Hpre M Hnick Huser Hmember.
  unfold sendToDiscord.
  rewrite (ObjFacts.lookup_own _ _ _ Hget), Ht, Hfind. unfold ebind, lift.
  rewrite withMentions_prefix by assumption. unfold withMentions.
  rewrite (replace_all_match _ _ _ _ _ _ _ M).
  unfold mentionReplacer at 1. rewrite Hnick, Huser, Hmember. reflexivity.
Qed.

(** X21. A notice and an action from a bridged IRC channel whose text
    holds no [@] are sent as a message whose body is the text between two
    [*] for a notice and between two [_] for an action. *)
Theorem notices_and_actions_are_wrapped :
  forall (bot : Bot) (discord : Discord) (author channel text : jsstring)
         name discordChannel log,
    Obj.get (invertedMapping bot) (toLowerCase channel) = Some name ->
    truthy name = true ->
    find_channel_by_name
      (filter (fun c => jseqb (ch_type c) (lit "text")) (d_channels discord))
      (skipn 1 name) = Some discordChannel ->
    ~ In 64%N text ->
    onNotice bot discord author channel text log
    = (log ++ [SendMessage discordChannel
                 (lit "**<" ++ author ++ lit ">** *" ++ text ++ lit "*")],
       Ok tt) /\
    onAction bot discord author channel text log
    = (log ++ [SendMessage discordChannel
                 (lit "**<" ++ author ++ lit ">** _" ++ text ++ lit "_")],
       Ok tt).
Proof.
  intros bot discord author channel text name dc log Hget Ht Hfind Hat.
  assert (Hwrap : forall m, m <> 64%N ->
    withMentions discord (ch_guild dc) (m :: text ++ [m])
    = Ok (m :: text ++ [m])).
  { intros m Hm.
    rewrite <- (app_nil_r (m :: text ++ [m])) at 1.
    rewrite withMentions_prefix.
    - simpl. rewrite app_nil_r. reflexivity.
    - intros [H|H]; [congruence|].
      apply in_app_or in H as [H|[H|[]]]; [contradiction | congruence]. }
  unfold onNotice, onAction, sendToDiscord.
  rewrite (ObjFacts.lookup_own _ _ _ Hget), Ht, Hfind.
  unfold ebind, lift, emit.
  change (lit "*" ++ text ++ lit "*") with (42%N :: text ++ [42%N]).
  change (lit "_" ++ text ++ lit "_") with (95%N :: text ++ [95%N]).
  rewrite !Hwrap by discriminate.
  split; repeat f_equal; simpl; repeat rewrite <- app_assoc; reflexivity.
Qed.

End MentionPass.

(** * Concrete runs of the further properties *)

Module MoreRuns.

Lemma commands_bot_constructed :
  @Bot_new Node.host Cases.withCommands = Ok Cases.commandsBot.
Proof. reflexivity. Qed.

Lemma ascii_lower_idempotent : forall s,
  Node.ascii_lower (Node.ascii_lower s) = Node.ascii_lower s.
Proof.
  induction s as [|c s IH]; [reflexivity|].
  simpl. rewrite IH. f_equal. unfold Node.lower_unit, between.
  destruct (N.leb 65 c && N.leb c 90) eqn:E.
  - apply andb_true_iff in E as [H1 H2].
    apply N.leb_le in H1, H2.
    replace (N.leb (c + 32) 90) with false
      by (symmetry; apply N.leb_gt; lia).
    rewrite andb_false_r. reflexivity.
  - rewrite E. reflexivity.
Qed.

(** X1: nickname and token both missing, the nickname is reported; the
    example bot had its fields. *)
Lemma constructor_reports_first_missing_field_witness :
  @Bot_new Node.host Cases.noNickname
  = Throw (ConfigurationError (lit "Missing configuration field nickname")) /\
  o_server Fixture.options = Some (server Fixture.bot) /\
  o_channelMapping Fixture.options <> None.
Proof.
  destruct (@constructor_reports_first_missing_field Node.host
              Cases.noNickname) as [_ [Hnick _]].
  destruct (@constructor_reports_first_missing_field Node.host
              Fixture.options) as [_ [_ [_ [_ Hok]]]].
  destruct (Hok Fixture.bot eq_refl) as [Hs [_ [_ [_ [_ [_ Hm]]]]]].
  split; [apply Hnick; reflexivity|]. split; [exact Hs | exact Hm].
Defined.




(** X5: a port and a retry count given by the user. *)
Lemma user_irc_options_override_defaults_witness :
  Val.get (ircOptionsOf Fixture.bot (Some Cases.secure)) (lit "retryCount")
  = Some (Val.VNumber 2) /\
  Val.get (ircOptionsOf Fixture.bot (Some Cases.secure)) (lit "port")
  = Some (Val.VNumber 6697) /\
  Val.get (ircOptionsOf Fixture.bot (Some Cases.secure))
          (lit "floodProtectionDelay")
  = Some (Val.VNumber 500) /\
  Val.get (ircOptionsOf Fixture.bot (Some Cases.secure)) (lit "channels")
  = Some (Val.VStrings [lit "#irc channelKey"]).
Proof.
  assert (Hnd : NoDup (map fst Cases.secure)).
  { repeat constructor; simpl; intuition discriminate. }
  destruct (user_irc_options_override_defaults Fixture.bot Cases.secure []
              Hnd) as [_ [Huser Hdefault]].
  split; [apply Huser; reflexivity|]. split; [apply Huser; reflexivity|].
  split; [exact (Hdefault (lit "floodProtectionDelay") eq_refl)|].
  exact (Hdefault (lit "channels") eq_refl).
Defined.

(** X6: two commands configured. *)
Lemma registered_sends_configured_commands_witness :
  onRegistered Cases.commandsBot []
  = ([Send [lit "PRIVMSG"; lit "NickServ"; lit "IDENTIFY password"];
      Send [lit "MODE"; lit "Discord_IRC"; lit "+x"]],
     Ok tt).
Proof.
  exact (@registered_sends_configured_commands Node.host Cases.withCommands
           Cases.commandsBot [] commands_bot_constructed).
Defined.

(** X7: invites to [#IRC], when [#irc] is bridged, and to [toString]. *)
Lemma invite_is_case_sensitive_witness :
  (Obj.get (invertedMapping Fixture.bot) (lit "#IRC") = None /\
   onInvite Fixture.bot (lit "#IRC") (lit "someone") [] = ([], Ok tt)) /\
  (Obj.get (invertedMapping Fixture.bot) (lit "toString") = None /\
   onInvite Fixture.bot (lit "toString") (lit "someone") []
   = ([Join (lit "toString")], Ok tt)).
Proof.
  split.
  - apply (@invite_is_case_sensitive Node.host Fixture.options Fixture.bot
             (lit "#IRC") (lit "someone") [] ascii_lower_idempotent eq_refl).
    apply jseqb_neq. reflexivity.
  - apply (@invite_is_case_sensitive Node.host Fixture.options Fixture.bot
             (lit "toString") (lit "someone") [] ascii_lower_idempotent
             eq_refl).
    apply jseqb_neq. reflexivity.
Defined.

(** X8: a member with a nickname and a user who is no member. *)
Lemma display_name_is_nickname_or_username_witness :
  getDiscordNicknameOnServer Fixture.bob Fixture.guild <> [] /\
  (exists color,
     colorFor (getDiscordNicknameOnServer Fixture.bob Fixture.guild)
     = Some color /\ In color NICK_COLORS) /\
  getDiscordNicknameOnServer Cases.ghost Fixture.guild <> [].
Proof.
  pose proof (display_name_is_nickname_or_username Fixture.bob Fixture.guild)
    as Hbob.
  pose proof (display_name_is_nickname_or_username Cases.ghost Fixture.guild)
    as Hghost.
  cbv zeta in Hbob, Hghost.
  destruct Hbob as [_ Hbob]. destruct Hghost as [_ Hghost].
  destruct Hbob as [Hne Hcolor]; [apply truthy_nonempty; reflexivity|].
  destruct Hghost as [Hne' _]; [apply truthy_nonempty; reflexivity|].
  auto.
Defined.

Ltac absent :=
  let H := fresh in
  intro H; vm_compute in H;
  repeat (destruct H as [H|H]; [discriminate H|]); exact H.

Ltac is_plain := repeat split; absent.

(** X9: an ordinary line. *)
Lemma plain_body_is_unchanged_witness :
  parseText Fixture.discord
    (Fixture.message Fixture.other "discord" "testmessage"
       [Fixture.testuser] None)
  = Ok (lit "testmessage").
Proof.
  apply (plain_body_is_unchanged Fixture.discord
           (Fixture.message Fixture.other "discord" "testmessage"
              [Fixture.testuser] None)); absent.
Defined.

(** X10: the encoding with [!]. *)
Lemma mention_is_rewritten_witness :
  parseText Fixture.discord
    (Fixture.message Fixture.other "discord" "<@!123> hi"
       [Fixture.testuser] None)
  = Ok (lit "@testuser hi").
Proof.
  apply (mention_is_rewritten Fixture.discord
           (Fixture.message Fixture.other "discord" "<@!123> hi"
              [Fixture.testuser] None)
           Fixture.testuser (lit "!") [] (lit " hi") eq_refl
           (or_intror (or_introl eq_refl)) eq_refl eq_refl);
    try is_plain; absent.
Defined.

(** X11: a reference to the text channel of the example. *)
Lemma channel_reference_is_resolved_witness :
  parseText Fixture.discord
    (Fixture.message Fixture.other "discord" "see <#1234> now" [] None)
  = Ok (lit "see #discord now").
Proof.
  apply (channel_reference_is_resolved Fixture.discord
           (Fixture.message Fixture.other "discord" "see <#1234> now" []
              None)
           (lit "1234") Fixture.textChannel (lit "see ") (lit " now")
           eq_refl (proj1 (truthy_nonempty (lit "1234")) eq_refl)
           eq_refl eq_refl);
    try is_plain; absent.
Defined.

(** X12: an emote. *)
Lemma emote_is_rewritten_witness :
  parseText Fixture.discord
    (Fixture.message Fixture.other "discord"
       "<:SCGWat:230473833046343680>" [] None)
  = Ok (lit ":SCGWat:").
Proof.
  apply (emote_is_rewritten Fixture.discord
           (Fixture.message Fixture.other "discord"
              "<:SCGWat:230473833046343680>" [] None)
           (lit "SCGWat") (lit "230473833046343680") [] [] eq_refl
           (proj1 (truthy_nonempty (lit "SCGWat")) eq_refl) eq_refl
           (proj1 (truthy_nonempty (lit "230473833046343680")) eq_refl)
           eq_refl);
    is_plain.
Defined.

(** X13: a body of two lines. *)
Lemma transformed_body_has_no_line_break_witness :
  parseText Fixture.discord Cases.twoLines = Ok (lit "hi hi") /\
  ~ In 10%N (lit "hi hi") /\ ~ In 13%N (lit "hi hi").
Proof.
  split; [reflexivity|].
  apply (transformed_body_has_no_line_break Fixture.discord Cases.twoLines
           (lit "hi hi")); [|reflexivity].
  intros channel [<-|[]]. split; absent.
Defined.

(** X14: the body ["see <#999>"]. *)
Lemma transform_throws_only_on_unknown_channel_witness :
  TypeError = TypeError /\
  exists folded id,
    replace_all match_newline (fun _ => Ok (lit " "))
      (mentionsReplaced
         (Fixture.message Fixture.other "discord" "see <#999>" [] None))
    = Ok folded /\
    contains (channelRef id) folded /\
    id <> [] /\ forallb is_digit id = true /\
    channels_get (d_channels Fixture.discord) id = None.
Proof.
  exact (transform_throws_only_on_unknown_channel Fixture.discord
           (Fixture.message Fixture.other "discord" "see <#999>" [] None)
           TypeError eq_refl).
Defined.

(** X16: a relayed IRC line. *)
Lemma relay_to_discord_sends_once_to_the_text_channel_witness :
  @sendToDiscord Node.host Fixture.bot Fixture.discord
     (lit "ircuser") (lit "#irc") (lit "hello") []
  = ([SendMessage Fixture.textChannel (lit "**<ircuser>** hello")], Ok tt) /\
  In Fixture.textChannel (d_channels Fixture.discord) /\
  ch_type Fixture.textChannel = lit "text".
Proof.
  split; [reflexivity|].
  destruct (@relay_to_discord_sends_once_to_the_text_channel Node.host
              Fixture.bot Fixture.discord (lit "ircuser") (lit "#irc")
              (lit "hello") []) as [calls [Hlog [_ [_ Hcalls]]]].
  change (fst (@sendToDiscord Node.host Fixture.bot Fixture.discord
                 (lit "ircuser") (lit "#irc") (lit "hello") []))
    with [SendMessage Fixture.textChannel (lit "**<ircuser>** hello")]
    in Hlog.
  simpl app in Hlog. subst calls.
  destruct (Hcalls _ (or_introl eq_refl))
    as [name [dc [body [E [_ [Hin [Htype _]]]]]]].
  injection E as <- _. auto.
Defined.

(** X17: only a voice channel has the mapped name. *)
Lemma unavailable_discord_channel_is_dropped_witness :
  @sendToDiscord Node.host Fixture.bot Cases.voiceOnly
     (lit "ircuser") (lit "#irc") (lit "hello") []
  = ([], Ok tt).
Proof.
  apply (@unavailable_discord_channel_is_dropped Node.host Fixture.bot
           Cases.voiceOnly (lit "ircuser") (lit "#irc") (lit "hello")
           (lit "#discord") [] eq_refl).
  intros dc [<-|[]] Htype. vm_compute in Htype. discriminate Htype.
Defined.

(** X19: the users of the example are members of its guild; a message to
    the bridged channel and one to the target [constructor]. *)
Lemma relay_to_discord_returns_when_users_are_members_witness :
  snd (@sendToDiscord Node.host Fixture.bot Fixture.discord
         (lit "ircuser") (lit "#irc") (lit "Hello, @testuser and @bob!") [])
  = Ok tt /\
  snd (@sendToDiscord Node.host Fixture.bot Fixture.discord
         (lit "ircuser") (lit "constructor") (lit "Hello") [])
  = Throw TypeError.
Proof.
  assert (Hmembers : forall discordChannel user,
             In discordChannel (d_channels Fixture.discord) ->
             In user (d_users Fixture.discord) ->
             find_member_by_id (ch_guild discordChannel) (u_id user) <> None).
  { intros dc user [<-|[]] [<-|[<-|[]]]; vm_compute; discriminate. }
  split.
  - exact (@relay_to_discord_returns_when_users_are_members Node.host
             Fixture.bot Fixture.discord (lit "ircuser") (lit "#irc")
             (lit "Hello, @testuser and @bob!") [] Hmembers).
  - exact (@relay_to_discord_returns_when_users_are_members Node.host
             Fixture.bot Fixture.discord (lit "ircuser") (lit "constructor")
             (lit "Hello") [] Hmembers).
Defined.

(** X20: a user of the client who is not in the guild. *)
Lemma username_of_a_non_member_throws_witness :
  @sendToDiscord Node.host Fixture.bot Cases.withGhost
     (lit "ircuser") (lit "#irc") (lit "hi @ghost") []
  = ([], Throw TypeError).
Proof.
  apply (@username_of_a_non_member_throws Node.host Fixture.bot
           Cases.withGhost (lit "ircuser") (lit "#irc") (lit "hi @ghost")
           (lit "#discord") Fixture.textChannel [] (lit "hi ") (lit "ghost")
           (lit "ghost") 6 Cases.ghost
           eq_refl eq_refl eq_refl eq_refl);
    try reflexivity.
  absent.
Defined.

(** X21: a notice and an action. *)
Lemma notices_and_actions_are_wrapped_witness :
  @onNotice Node.host Fixture.bot Fixture.discord
     (lit "ircuser") (lit "#irc") (lit "is away") []
  = ([SendMessage Fixture.textChannel (lit "**<ircuser>** *is away*")],
     Ok tt) /\
  @onAction Node.host Fixture.bot Fixture.discord
     (lit "ircuser") (lit "#irc") (lit "waves") []
  = ([SendMessage Fixture.textChannel (lit "**<ircuser>** _waves_")],
     Ok tt).
Proof.
  split.
  - refine (proj1 (@notices_and_actions_are_wrapped Node.host Fixture.bot
                     Fixture.discord (lit "ircuser") (lit "#irc")
                     (lit "is away") (lit "#discord") Fixture.textChannel []
                     eq_refl eq_refl eq_refl _)).
    absent.
  - refine (proj2 (@notices_and_actions_are_wrapped Node.host Fixture.bot
                     Fixture.discord (lit "ircuser") (lit "#irc")
                     (lit "waves") (lit "#discord") Fixture.textChannel []
                     eq_refl eq_refl eq_refl _)).
    absent.
Defined.

(** X15: a body with one attachment. *)
Lemma relay_to_irc_says_only_to_the_mapped_channel_witness :
  exists calls,
    fst (@sendToIRC Node.host Fixture.bot Fixture.discord Cases.withImage [])
    = [] ++ calls /\
    List.length calls <= 2 /\
    (calls <> [] ->
     exists ircChannel,
       Obj.get (channelMapping Fixture.bot) (lit "#discord")
       = Some ircChannel /\
       forall call, In call calls -> exists t, call = Say ircChannel t).
Proof.
  destruct (@relay_to_irc_says_only_to_the_mapped_channel Node.host
              Fixture.bot Fixture.discord Cases.withImage [])
    as [calls [Hlog [Hlen [_ Hsay]]]].
  exists calls. split; [exact Hlog|]. split; [exact Hlen|].
  intros Hne. destruct (Hsay Hne) as [_ H]. exact H.
Defined.

(** X18: nobody is called [5pm]. *)
Lemma unresolved_names_are_relayed_verbatim_witness :
  @withMentions Node.host Fixture.discord Fixture.guild (lit "@5pm")
  = Ok (lit "@5pm").
Proof.
  apply (@unresolved_names_are_relayed_verbatim Node.host).
  intros pre r token n E M. vm_compute in E.
  destruct pre as [|x0 pre]; simpl in E.
  - injection E as <-. vm_compute in M. injection M as <- _.
    split; reflexivity.
  - injection E as _ E.
    repeat (destruct pre as [|? pre]; simpl in E;
            [discriminate E | injection E as _ E]).
    destruct pre; discriminate E.
Defined.

End MoreRuns.
